(** * Windowed functional connectivity: a model of [functional_connectivity_v2.py]

    The development embeds the numerical core of the module
    ([stationary_fc], [dynamic_fc], [dynamic_gfc] and
    [I2Run.create_dgfc_volumes]) and states the properties of the
    specification over it.

    Conventions of the embedding:
    - a float64 scalar is a [num]: an exact rational, one of the two
      infinities, or NaN.  Rounding is abstracted away; the special values
      and the comparison semantics of IEEE arithmetic are kept.  The
      properties that depend on rounding are stated over the binary64
      floats of module [F64] instead;
    - a Python exception is a [Raise] in the [result] type;
    - numpy arrays that are mutated in place live in a [heap], indexed by
      object identity, so that aliasing between a template array and its
      copies is visible;
    - the estimator of nilearn ([ConnectivityMeasure]) is not part of the
      module: it is a variable of the sections that need it. *)

From Stdlib Require Import ZArith QArith Qcanon Lia Lqa.
From stdpp Require Import base tactics decidable option list numbers.
From stdpp Require strings.
From Stdlib Require Floats.

Set Default Proof Using "Type".

(** ** Scalars *)

Inductive num : Type :=
  | NaN
  | Inf (negative : bool)
  | Fin (q : Qc).

Global Instance num_eq_dec : EqDecision num.
Proof. solve_decision. Defined.

Global Instance num_inhabited : Inhabited num := populate NaN.

Definition zero : num := Fin 0%Qc.

(** Conversion of a Python [int] that meets a float array. *)
Definition int_to_float (z : Z) : num := Fin (Qc_of_Z z).

(** [a == b] on float64: NaN differs from everything, itself included. *)
Definition num_eqb (x y : num) : bool :=
  match x, y with
  | NaN, _ | _, NaN => false
  | _, _ => bool_decide (x = y)
  end.

Definition num_add (x y : num) : num :=
  match x, y with
  | NaN, _ | _, NaN => NaN
  | Inf a, Inf b => if bool_decide (a = b) then Inf a else NaN
  | Inf a, Fin _ | Fin _, Inf a => Inf a
  | Fin a, Fin b => Fin (a + b)%Qc
  end.

Definition Qc_negative (q : Qc) : bool := bool_decide (q < 0)%Qc.

Definition num_div (x y : num) : num :=
  match x, y with
  | NaN, _ | _, NaN => NaN
  | Inf _, Inf _ => NaN
  | Inf a, Fin d => Inf (xorb a (Qc_negative d))
  | Fin _, Inf _ => zero
  | Fin a, Fin d =>
      if bool_decide (d = 0%Qc)
      then (if bool_decide (a = 0%Qc) then NaN else Inf (Qc_negative a))
      else Fin (a / d)%Qc
  end.

Definition is_nan (x : num) : bool :=
  match x with NaN => true | _ => false end.

Definition is_finite (x : num) : Prop :=
  match x with Fin _ => True | _ => False end.

(** ** Arrays *)

(** A 2D array, row major. *)
Abbreviation matrix := (list (list num)).

Definition has_shape (M : matrix) (r c : nat) : Prop :=
  length M = r ∧ Forall (λ row, length row = c) M.

(** [M[i, j]] *)
Definition entry (M : matrix) (i j : nat) : option num :=
  M !! i ≫= λ row, row !! j.

(** A 3D array: the shape is kept apart from the items because
    [np.zeros((0, 100, 100))] still has [shape[-1] == 100]. *)
Record ndarray3 : Type := mk_ndarray3 {
  shape3 : nat * nat * nat;
  items : list matrix
}.

(** ** Exceptions *)

Inductive pyerr : Type :=
  | ZeroDivisionError
  | ValueError
  | IndexError
  | OverflowError.

Inductive result (A : Type) : Type :=
  | Ok (a : A)
  | Raise (e : pyerr).
Global Arguments Ok {A} a.
Global Arguments Raise {A} e.

Definition result_bind {A B} (c : result A) (k : A → result B) : result B :=
  match c with
  | Ok a => k a
  | Raise e => Raise e
  end.

Notation "'let!' x ':=' c 'in' k" := (result_bind c (λ x, k))
  (at level 10, x pattern, c at level 100, k at level 200, only parsing).

(** A [for] loop that threads a state and stops at the first exception. *)
Fixpoint for_state {A S} (xs : list A) (body : A → S → result S) (s : S)
    : result S :=
  match xs with
  | [] => Ok s
  | x :: xs' => let! s' := body x s in for_state xs' body s'
  end.

(** ** Objects that are mutated in place *)

Abbreviation loc := nat (only parsing).

(** A voxel grid is stored flattened, in C order: no operation of the module
    looks at the factorisation of the voxel count into [(x, y, z)].  A 4D
    array keeps the frame axis last, as [(x, y, z, n_frames)] does. *)
Inductive ndarray : Type :=
  | Grid3 (voxels : list num)
  | Grid4 (n_frames : nat) (voxels : list (list num)).

Abbreviation heap := (list ndarray).

Definition M (A : Type) : Type := heap → result (A * heap).

Definition mret {A} (a : A) : M A := λ h, Ok (a, h).

Definition mbind {A B} (c : M A) (k : A → M B) : M B :=
  λ h, match c h with
       | Ok (a, h') => k a h'
       | Raise e => Raise e
       end.

Definition mraise {A} (e : pyerr) : M A := λ _, Raise e.

Notation "'let*' x ':=' c 'in' k" := (mbind c (λ x, k))
  (at level 10, x pattern, c at level 100, k at level 200, only parsing).

Fixpoint for_each {A} (xs : list A) (body : A → M unit) : M unit :=
  match xs with
  | [] => mret tt
  | x :: xs' => let* _ := body x in for_each xs' body
  end.

(** A new object: its identity is the next free index. *)
Definition alloc (a : ndarray) : M loc := λ h, Ok (length h, h ++ [a]).

(** The voxels of a 3D array; anything else does not unpack as [x, y, z]. *)
Definition load3 (l : loc) : M (list num) :=
  λ h, match h !! l with
       | Some (Grid3 v) => Ok (v, h)
       | _ => Raise ValueError
       end.

Definition load4 (l : loc) : M (nat * list (list num)) :=
  λ h, match h !! l with
       | Some (Grid4 n v) => Ok ((n, v), h)
       | _ => Raise ValueError
       end.

Definition store (l : loc) (a : ndarray) : M unit :=
  λ h, Ok (tt, <[l := a]> h).

(** [np.zeros((x, y, z, n_frames))] *)
Definition np_zeros4 (n_voxels n_frames : nat) : M loc :=
  alloc (Grid4 n_frames (replicate n_voxels (replicate n_frames zero))).

(** [a.copy()] *)
Definition np_copy (l : loc) : M loc :=
  let* v := load3 l in alloc (Grid3 v).

(** [a[a == parcel] = value], in place. *)
Definition substitute (parcel : nat) (value : num) (x : num) : num :=
  if num_eqb x (int_to_float (Z.of_nat parcel)) then value else x.

(** The mask [a == parcel] is a temporary array that no name keeps; it is
    not an object of the heap of the model. *)
Definition masked_assign (l : loc) (parcel : nat) (value : num) : M unit :=
  let* v := load3 l in store l (Grid3 (substitute parcel value <$> v)).

(** [volumes[:, :, :, i] = frame], in place. *)
Definition setitem_frame (volumes : loc) (i : nat) (frame : loc) : M unit :=
  let* fv := load3 frame in
  let* (n, rows) := load4 volumes in
  if bool_decide (length fv = length rows)
  then store volumes (Grid4 n (zip_with (λ row x, <[i := x]> row) rows fv))
  else mraise ValueError.

(** [seq[i]] *)
Definition getitem {A} (xs : list A) (i : nat) : M A :=
  match xs !! i with
  | Some x => mret x
  | None => mraise IndexError
  end.

(** [enumerate(values, 1)] *)
Definition enumerate1 {A} (values : list A) : list (nat * A) :=
  zip (seq 1 (length values)) values.

(** ** [I2Run.create_dgfc_volumes] *)

(** The fields of the run object that the reconstruction reads and writes.
    [parcel_img] is the array that [self.parcel_img.get_fdata()] hands out
    (the image caches it, so every call yields the same object);
    [gdfc_img] is the array wrapped by the image assigned at the end. *)
Record I2Run : Type := mk_I2Run {
  parcel_img : loc;
  gdfc_matrix : list (list num);
  gdfc_img : option loc
}.

Definition create_dgfc_volumes (self : I2Run) : M I2Run :=
  let frame_template := parcel_img self in
  let* template_voxels := load3 frame_template in
  let n_frames := length (gdfc_matrix self) in
  let* volumes := np_zeros4 (length template_voxels) n_frames in
  let* _ := for_each (seq 0 n_frames) (λ i,
      let* frame_volume := np_copy frame_template in
      let* frame_values := getitem (gdfc_matrix self) i in
      let frame_values_map := enumerate1 frame_values in
      let* _ := for_each frame_values_map (λ '(parcel, gfc_value),
          masked_assign frame_volume parcel gfc_value) in
      setitem_frame volumes i frame_volume) in
  mret (mk_I2Run (parcel_img self) (gdfc_matrix self) (Some volumes)).

(** ** [stationary_fc] *)

(** [np.fill_diagonal(M, v)]: on a matrix that is not square only the
    entries [(i, i)] that exist are written. *)
Definition fill_diagonal (M : matrix) (v : num) : matrix :=
  imap (λ i row, <[i := v]> row) M.

(** [correlation_measure] stands for
    [ConnectivityMeasure(kind="correlation", standardize="zscore_sample")]
    applied to one time series, [fit_transform([timeseries])[0]]. *)
Definition stationary_fc (correlation_measure : matrix → matrix)
    (timeseries : matrix) : matrix :=
  let sfc_matrix := correlation_measure timeseries in
  fill_diagonal sfc_matrix zero.

(** ** [dynamic_fc] *)

(** [a // b] on Python integers. *)
Definition py_floordiv (a b : Z) : result Z :=
  if bool_decide (b = 0)%Z then Raise ZeroDivisionError else Ok (a / b)%Z.

(** [range(n)] *)
Definition py_range (n : Z) : list nat := seq 0 (Z.to_nat n).

(** A bound of a slice, resolved against the length as Python does:
    a negative bound counts from the end, and every bound is clamped. *)
Definition slice_bound (len : nat) (k : Z) : nat :=
  Z.to_nat (if bool_decide (k < 0)%Z
            then Z.max 0 (k + Z.of_nat len)
            else Z.min k (Z.of_nat len)).

(** [xs[start:stop]] *)
Definition slice_rows {A} (xs : list A) (start stop : Z) : list A :=
  let a := slice_bound (length xs) start in
  let b := slice_bound (length xs) stop in
  take (b - a) (drop a xs).

(** [np.zeros((n, r, c))] *)
Definition np_zeros3 (n : Z) (r c : nat) : result ndarray3 :=
  if bool_decide (n < 0)%Z then Raise ValueError
  else Ok (mk_ndarray3 (Z.to_nat n, r, c)
             (replicate (Z.to_nat n) (replicate r (replicate c zero)))).

(** [np.zeros(n)] *)
Definition np_zeros1 (n : Z) : result (list Qc) :=
  if bool_decide (n < 0)%Z then Raise ValueError
  else Ok (replicate (Z.to_nat n) 0%Qc).

(** One axis of numpy's broadcasting: the lengths agree, or the source has
    length one and is repeated. *)
Definition broadcast_axis {A} (n : nat) (xs : list A) : option (list A) :=
  if bool_decide (length xs = n) then Some xs
  else match xs with
       | [x] => Some (replicate n x)
       | _ => None
       end.

Definition broadcast_to (r c : nat) (M : matrix) : option matrix :=
  rows ← mapM (broadcast_axis c) M; broadcast_axis r rows.

(** [d[i] = M] *)
Definition setitem_broadcast (d : ndarray3) (i : nat) (M : matrix)
    : result ndarray3 :=
  let '(n, r, c) := shape3 d in
  if bool_decide (i < n)
  then match broadcast_to r c M with
       | Some M' => Ok (mk_ndarray3 (shape3 d) (<[i := M']> (items d)))
       | None => Raise ValueError
       end
  else Raise IndexError.

(** [timeseries[i*step_size : i*step_size + window_size, :]] *)
Definition window_timeseries (timeseries : matrix) (window_size step_size : Z)
    (i : nat) : matrix :=
  slice_rows timeseries (Z.of_nat i * step_size)
    (Z.of_nat i * step_size + window_size).

(** [(i * step_size + window_size // 2) * frame_ms / 1000], without the
    rounding of the stored float64, for which see [F64.window_timestamp]. *)
Definition window_timestamp (window_size step_size : Z) (frame_ms : Qc)
    (i : nat) : Qc :=
  (Qc_of_Z (Z.of_nat i * step_size + window_size / 2) * frame_ms
   / Qc_of_Z 1000)%Qc.

Definition dynamic_fc (correlation_measure : matrix → matrix)
    (timeseries : matrix) (window_size step_size : Z) (frame_ms : Qc)
    : result (ndarray3 * list Qc) :=
  let! q := py_floordiv (Z.of_nat (length timeseries) - window_size) step_size in
  let n_windows := (q + 1)%Z in
  let! dfc_matrix := np_zeros3 n_windows 100 100 in
  let! window_timestamps := np_zeros1 n_windows in
  for_state (py_range n_windows)
    (λ i '(dfc_matrix, window_timestamps),
       let window := window_timeseries timeseries window_size step_size i in
       let! dfc_matrix :=
         setitem_broadcast dfc_matrix i
           (stationary_fc correlation_measure window) in
       Ok (dfc_matrix,
           <[i := window_timestamp window_size step_size frame_ms i]>
             window_timestamps))
    (dfc_matrix, window_timestamps).

(** ** [dynamic_gfc] *)

(** [np.sum(W, axis=0)] for [W] with [c] columns: the rows are added up,
    so entry [j] is the sum of column [j]. *)
Definition np_sum_axis0 (c : nat) (W : matrix) : list num :=
  foldl (zip_with num_add) (replicate c zero) W.

Definition dynamic_gfc (dfc_matrix : ndarray3) : list (list num) :=
  let n_parcels := (shape3 dfc_matrix).2 in
  (λ W, (λ s, num_div s (int_to_float (Z.of_nat n_parcels - 1)))
          <$> np_sum_axis0 n_parcels W)
    <$> items dfc_matrix.

(** ** Vocabulary of the specification *)

(** Sum of row [r], the quantity the specification divides by [R - 1]. *)
Definition row_sum (W : matrix) (r : nat) : num :=
  foldl num_add zero (default [] (W !! r)).

Definition symmetric (W : matrix) : Prop :=
  ∀ i j, entry W i j = entry W j i.

Definition zero_diagonal (W : matrix) : Prop :=
  ∀ i, i < length W → entry W i i = Some zero.

(** An entry that is a number between -1 and 1. *)
Definition in_unit_range (x : num) : Prop :=
  match x with
  | Fin q => (-1 ≤ q ≤ 1)%Qc
  | _ => False
  end.

(** The label a voxel carries, as stored in the float volume. *)
Definition label (l : Z) : num := int_to_float l.

(** Frame [f] of voxel [v] in a 4D array held in the heap. *)
Definition voxel_at (h : heap) (l : loc) (v f : nat) : option num :=
  match h !! l with
  | Some (Grid4 _ rows) => rows !! v ≫= λ row, row !! f
  | _ => None
  end.

(** The voxels of a 3D array held in the heap. *)
Definition voxels_of (h : heap) (l : loc) : option (list num) :=
  match h !! l with
  | Some (Grid3 v) => Some v
  | _ => None
  end.

(** What the inner loop of the reconstruction does to one voxel: the
    substitutions for the parcels [1, 2, ...] are applied one after the
    other to the value the voxel holds at that moment. *)
Definition relabel_from (start : nat) (frame_values : list num) (x : num)
    : num :=
  foldl (λ x '(parcel, gfc_value), substitute parcel gfc_value x) x
    (zip (seq start (length frame_values)) frame_values).

Definition relabel (frame_values : list num) (x : num) : num :=
  foldl (λ x '(parcel, gfc_value), substitute parcel gfc_value x) x
    (enumerate1 frame_values).

(** What [volumes[:, :, :, i] = frame] does to the rows of the 4D array. *)
Definition paint (i : nat) (frame : list num) (rows : list (list num))
    : list (list num) :=
  zip_with (λ row x, <[i := x]> row) rows frame.

(** ** The loop body of the reconstruction *)

(** The body of the loop over frames, as it stands in
    [create_dgfc_volumes]. *)
Local Definition frame_body (frame_template volumes : loc)
    (gdfc : list (list num)) (i : nat) : M unit :=
  let* frame_volume := np_copy frame_template in
  let* frame_values := getitem gdfc i in
  let frame_values_map := enumerate1 frame_values in
  let* _ := for_each frame_values_map (λ '(parcel, gfc_value),
      masked_assign frame_volume parcel gfc_value) in
  setitem_frame volumes i frame_volume.

(** ** The estimator, as far as the module relies on it *)

(** A computation that returned rather than raised. *)
Definition succeeds {A} (r : result A) : Prop :=
  match r with
  | Ok _ => True
  | Raise _ => False
  end.

(** Column [j] of a matrix, top to bottom. *)
Definition column (W : matrix) (j : nat) : list num :=
  (λ row, row !!! j) <$> W.

(** The part of the estimator's contract that concerns shapes: a series
    with at least one sample and [c] regions yields a [c × c] matrix. *)
Definition measure_shape (correlation_measure : matrix → matrix) : Prop :=
  ∀ (w : matrix) r c,
    1 ≤ r → has_shape w r c → has_shape (correlation_measure w) c c.

(** A column without variance: all its samples are equal. *)
Definition constant_column (ts : matrix) (j : nat) : Prop :=
  ∀ x y, x ∈ column ts j → y ∈ column ts j → x = y.

(** A segment the specification calls valid: at least two samples, at least
    two regions, no region without variance. *)
Definition valid_segment (ts : matrix) (r c : nat) : Prop :=
  has_shape ts r c ∧ 2 ≤ r ∧ 2 ≤ c ∧ ∀ j, j < c → ¬ constant_column ts j.

(** What the module relies on from the estimator: on a valid segment over
    [c] regions it returns a symmetric [c × c] matrix of correlations,
    each a number between -1 and 1. *)
Definition correlation_contract (correlation_measure : matrix → matrix)
    : Prop :=
  ∀ (ts : matrix) r c,
    valid_segment ts r c →
    has_shape (correlation_measure ts) c c
    ∧ symmetric (correlation_measure ts)
    ∧ ∀ i j x, entry (correlation_measure ts) i j = Some x → in_unit_range x.

(** ** Example data *)

Definition half : Qc := (Qc_of_Z 1 / Qc_of_Z 2)%Qc.

(** Five voxels: parcel 1, background, parcel 2, a label beyond the two
    parcels, and a negative label. *)
Definition example_labels : list num :=
  [label 1; label 0; label 2; label 7; label (-1)].

Definition example_heap : heap := [Grid3 example_labels].

(** Two frames over two parcels, with values a mean correlation can take. *)
Definition example_run : I2Run :=
  mk_I2Run 0 [[Fin half; Fin (- half)%Qc]; [NaN; Fin half]] None.

(** One frame whose first value is the number of the second parcel. *)
Definition colliding_run : I2Run :=
  mk_I2Run 0 [[int_to_float 2; int_to_float 5]] None.

(** An estimator that reports every pair of distinct regions as
    uncorrelated; it serves to run the windowed computation on examples. *)
Definition identity_measure (ts : matrix) : matrix :=
  let c := length (default [] (head ts)) in
  fill_diagonal (replicate c (replicate c zero)) (Fin 1%Qc).

(** A series of [T] samples over [R] regions: sample [t] of region [r]
    is [t * (r + 1)]. *)
Definition ramp (T R : nat) : matrix :=
  (λ t, (λ r, int_to_float (Z.of_nat (t * S r))) <$> seq 0 R) <$> seq 0 T.

(** Two windows over three regions.  In the first, region 0 is degenerate:
    its row and its column are NaN off the diagonal.  In the second, every
    pair of distinct regions has correlation 1/2. *)
Definition degenerate_window : matrix :=
  [[zero; NaN; NaN]; [NaN; zero; Fin half]; [NaN; Fin half; zero]].

Definition uniform_window : matrix :=
  [[zero; Fin half; Fin half];
   [Fin half; zero; Fin half];
   [Fin half; Fin half; zero]].

Definition example_stack : ndarray3 :=
  mk_ndarray3 (2, 3, 3) [degenerate_window; uniform_window].

Ltac below_three i :=
  destruct i as [|[|[|i]]]; [| | |simpl in *; lia].

Ltac below_four i :=
  destruct i as [|[|[|[|i]]]]; [| | | |simpl in *; lia].

(** ** [plot_agg_dgfc] *)

(** [xs.index(x)]: the position of the first element equal to [x]. *)
Fixpoint py_index `{EqDecision A} (xs : list A) (x : A) : result Z :=
  match xs with
  | [] => Raise ValueError
  | y :: ys =>
      if decide (y = x) then Ok 0%Z
      else let! k := py_index ys x in Ok (k + 1)%Z
  end.

(** A list comprehension whose element expression may raise. *)
Fixpoint comprehension {A B} (f : A → result B) (xs : list A)
    : result (list B) :=
  match xs with
  | [] => Ok []
  | x :: xs' =>
      let! y := f x in
      let! ys := comprehension f xs' in
      Ok (y :: ys)
  end.

(** An integer index into an axis of length [len], as numpy resolves it:
    a negative index counts from the end. *)
Definition np_index (len : nat) (k : Z) : result nat :=
  if bool_decide (0 ≤ k < Z.of_nat len)%Z then Ok (Z.to_nat k)
  else if bool_decide (- Z.of_nat len ≤ k < 0)%Z
       then Ok (Z.to_nat (k + Z.of_nat len))
       else Raise IndexError.

(** [M[:, indices]] on the array that [dynamic_gfc] returns.  For an empty
    stack that array is [np.array([])], which has one axis only, and two
    indices are too many. *)
Definition take_columns (M : list (list num)) (indices : list Z)
    : result (list (list num)) :=
  match M with
  | [] => Raise IndexError
  | row0 :: _ =>
      let! cols := comprehension (np_index (length row0)) indices in
      Ok ((λ row, (λ c, row !!! c) <$> cols) <$> M)
  end.

(** [M.mean(axis=1)]: the sum of each row over the number of its entries;
    the mean of no entry at all is [0 / 0]. *)
Definition np_mean_axis1 (M : list (list num)) : list num :=
  (λ row, num_div (foldl num_add zero row)
            (int_to_float (Z.of_nat (length row)))) <$> M.

(** The series that [plot_agg_dgfc] hands to [plot_dfc]; the drawing itself
    is left out.  Labels are compared by equality, whatever their type. *)
Definition plot_agg_dgfc `{EqDecision A} (gdfc_matrix : list (list num))
    (parcel_labels parcels_of_interest : list A)
    : result (list num) :=
  let! parcel_indices :=
    comprehension (λ label,
        let! k := py_index parcel_labels label in Ok (k - 1)%Z)
      parcels_of_interest in
  let! selected := take_columns gdfc_matrix parcel_indices in
  let agg_fc := np_mean_axis1 selected in
  Ok agg_fc.

(** Labels as the commented driver builds them: the background first, then
    one name per parcel. *)
Module Labels.
Import Stdlib.Strings.String.
Local Open Scope string_scope.

Definition background : string := "Background".
Definition vis_1 : string := "7Networks_LH_Vis_1".
Definition pcc_1 : string := "7Networks_LH_Default_PCC_1".
Definition pcc_2 : string := "7Networks_LH_Default_PCC_2".
Definition unknown : string := "7Networks_RH_Default_PFCm_1".
End Labels.

Definition example_parcel_labels : list String.string :=
  [Labels.background; Labels.vis_1; Labels.pcc_1; Labels.pcc_2].

(** Two windows over three parcels. *)
Definition example_gdfc : list (list num) :=
  [[Fin half; Fin (- half)%Qc; Fin half];
   [Fin (- half)%Qc; Fin half; Fin half]].

(** The global vector of one window of the returned stack. *)
Definition window_vector (corr : matrix → matrix) (ts : matrix) ws step
    (f : nat) : list num :=
  (λ s, num_div s (int_to_float (Z.of_nat 100 - 1)))
    <$> np_sum_axis0 100 (stationary_fc corr (window_timeseries ts ws step f)).

(** ** Global vectors *)

(** A global vector over [R] regions, as [dynamic_gfc] produces it from
    correlation matrices: [R] means of correlations, each a number between
    -1 and 1, or NaN where a correlation of the window is undefined. *)
Definition global_vector (R : nat) (g : list num) : Prop :=
  length g = R ∧ Forall (λ x, x = NaN ∨ in_unit_range x) g.

(** ** Rounded arithmetic

    Where a property depends on the rounding of float64, the expression of
    the source is embedded a second time over the binary64 floats of the
    kernel: every operation rounds to nearest, ties to even, as the
    arithmetic of CPython and numpy does. *)

Module F64.
Import Stdlib.Floats.Floats.
Local Open Scope float_scope.

Global Instance float_inhabited : Inhabited float := populate 0.

(** A Python [int] as a float64, rounded to nearest; a value beyond the
    range of float64 comes out as an infinity. *)
Definition float_of_int (z : Z) : float :=
  SF2Prim (binary_normalize prec emax z 0 false).

Definition Z2SF (z : Z) : spec_float :=
  match z with
  | Z0 => S754_zero false
  | Zpos p => S754_finite false p 0
  | Zneg p => S754_finite true p 0
  end.

(** [float(z)] where Python converts an [int] operand: [OverflowError]
    when the value is out of range. *)
Definition py_float (z : Z) : result float :=
  let x := float_of_int z in
  if is_infinity x then Raise OverflowError else Ok x.

(** [a / b] on two Python [int]s: the quotient rounded once. *)
Definition int_truediv (a b : Z) : result float :=
  if bool_decide (b = 0%Z) then Raise ZeroDivisionError
  else
    let x := SF2Prim (SFdiv prec emax (Z2SF a) (Z2SF b)) in
    if is_infinity x then Raise OverflowError else Ok x.

(** The number [frame_ms] is called with: a Python [int] (the default,
    900) or a [float]. *)
Inductive pynum : Type :=
  | PyInt (z : Z)
  | PyFloat (x : float).

(** [c * x] for a Python [int] [c]. *)
Definition py_mul_int (c : Z) (x : pynum) : result pynum :=
  match x with
  | PyInt z => Ok (PyInt (c * z))
  | PyFloat f => let! cf := py_float c in Ok (PyFloat (cf * f))
  end.

(** [x / d] for a Python [int] [d]. *)
Definition py_truediv_int (x : pynum) (d : Z) : result float :=
  match x with
  | PyInt a => int_truediv a d
  | PyFloat f =>
      if bool_decide (d = 0%Z) then Raise ZeroDivisionError
      else let! df := py_float d in Ok (f / df)
  end.

(** [(i * step_size + window_size // 2) * frame_ms / 1000], the value
    stored in [window_timestamps[i]]. *)
Definition window_timestamp (window_size step_size : Z) (frame_ms : pynum)
    (i : nat) : result float :=
  let! p := py_mul_int (Z.of_nat i * step_size + window_size / 2) frame_ms in
  py_truediv_int p 1000.




Abbreviation fmatrix := (list (list float)).

Record ndarray3 : Type := mk_ndarray3 {
  shape3 : nat * nat * nat;
  items : list fmatrix
}.

Definition has_shape (M : fmatrix) (r c : nat) : Prop :=
  length M = r ∧ Forall (λ row, length row = c) M.

Definition entry (M : fmatrix) (i j : nat) : option float :=
  M !! i ≫= λ row, row !! j.

Definition column (M : fmatrix) (j : nat) : list float :=
  (λ row, row !!! j) <$> M.

(** [np.sum(W, axis=0)]: the rows are added to the running sum one after
    the other, starting from 0.  (On a column that holds a [+0.0], as every
    column of a matrix with a zeroed diagonal does, starting from the first
    row gives the same floats.) *)
Definition np_sum_axis0 (c : nat) (W : fmatrix) : list float :=
  foldl (zip_with add) (replicate c 0) W.

(** [np.array([np.sum(W, axis=0) / (n_parcels-1) for W in dfc_matrix])] *)
Definition dynamic_gfc (dfc_matrix : ndarray3) : list (list float) :=
  let n_parcels := (shape3 dfc_matrix).2 in
  (λ W, (λ s, s / float_of_int (Z.of_nat n_parcels - 1))
          <$> np_sum_axis0 n_parcels W)
    <$> items dfc_matrix.

(** The float64 sum of a list, in index order. *)
Definition sum (xs : list float) : float := foldl add 0 xs.

Definition row_sum (W : fmatrix) (r : nat) : float :=
  sum (default [] (W !! r)).

Definition symmetric (W : fmatrix) : Prop :=
  ∀ i j, entry W i j = entry W j i.

Definition zero_diagonal (W : fmatrix) : Prop :=
  ∀ i, i < length W → entry W i i = Some 0.

(** Example values: 0.1, 0.9, 19.8 and 23.4 as float64, the float64 next
    above 0.1 and 23.4, the smallest positive float64 (about 5e-324), 607
    times and 15 times the smallest positive float64 (about 3e-321 and
    7.4e-323). *)
Definition tenth : float := 0x1.999999999999ap-4.
Definition above_tenth : float := 0x1.999999999999bp-4.
Definition nine_tenths : float := 0x1.ccccccccccccdp-1.
Definition f_19_8 : float := 0x1.3cccccccccccdp+4.
Definition f_23_4 : float := 0x1.7666666666666p+4.
Definition above_23_4 : float := 0x1.7666666666667p+4.
Definition smallest : float := 0x1p-1074.

(** Four regions, every pair of distinct regions with correlation 0.1. *)
Definition tenth_window : fmatrix :=
  [[0; tenth; tenth; tenth];
   [tenth; 0; tenth; tenth];
   [tenth; tenth; 0; tenth];
   [tenth; tenth; tenth; 0]].

Definition tenth_stack : ndarray3 := mk_ndarray3 (1, 4, 4)%nat [tenth_window].

End F64.

(** * Properties *)

(** ** Scalars and labels *)

Lemma num_eqb_int x z : num_eqb x (int_to_float z) = true ↔ x = int_to_float z.
Proof.
  unfold int_to_float, num_eqb.
  destruct x; [split; discriminate | apply bool_decide_eq_true ..].
Qed.

Lemma int_to_float_inj a b : int_to_float a = int_to_float b → a = b.
Proof.
  unfold int_to_float. intros H.
  assert (Qc_of_Z a = Qc_of_Z b) as Hq by congruence.
  by apply Z2Qc_inj.
Qed.

Lemma substitute_hit p v : substitute p v (label (Z.of_nat p)) = v.
Proof.
  unfold substitute, label.
  by rewrite (proj2 (num_eqb_int _ _) eq_refl).
Qed.

Lemma substitute_miss p v x : x ≠ label (Z.of_nat p) → substitute p v x = x.
Proof.
  unfold substitute, label. intros Hx.
  destruct (num_eqb x _) eqn:E; [|done].
  by apply num_eqb_int in E.
Qed.

(** ** The per-voxel substitution chain *)

Lemma relabel_from_miss g : ∀ s x,
  (∀ p, s ≤ p < s + length g → x ≠ label (Z.of_nat p)) →
  relabel_from s g x = x.
Proof.
  unfold relabel_from. induction g as [|v g IH]; intros s x Hx; [done|].
  simpl. rewrite substitute_miss by (apply Hx; simpl; lia).
  apply IH. intros p Hp. apply Hx. simpl. lia.
Qed.

Lemma relabel_from_hit g : ∀ s l v,
  s ≤ l →
  g !! (l - s) = Some v →
  (∀ p, l < p < s + length g → v ≠ label (Z.of_nat p)) →
  relabel_from s g (label (Z.of_nat l)) = v.
Proof.
  induction g as [|w g IH]; intros s l v Hs Hg Hv; [done|].
  unfold relabel_from. simpl.
  destruct (decide (l = s)) as [->|Hne].
  - rewrite Nat.sub_diag in Hg. simpl in Hg. injection Hg as ->.
    rewrite substitute_hit.
    apply (relabel_from_miss g (S s) v).
    intros p Hp. apply Hv. simpl. lia.
  - rewrite substitute_miss.
    + apply (IH (S s) l v); [lia| |].
      * replace (l - s) with (S (l - S s)) in Hg by lia. done.
      * intros p Hp. apply Hv. simpl. lia.
    + intros E. apply int_to_float_inj in E. lia.
Qed.

Lemma relabel_eq g x : relabel g x = relabel_from 1 g x.
Proof. done. Qed.

(** ** The loops of the reconstruction *)

Lemma foldl_insert_seq {A} (F : nat → A) (row0 : list A) k :
  k ≤ length row0 →
  foldl (λ row i, <[i := F i]> row) row0 (seq 0 k)
  = (F <$> seq 0 k) ++ drop k row0.
Proof.
  induction k as [|k IH]; intros Hk.
  - simpl. by rewrite drop_0.
  - rewrite seq_S, foldl_snoc, fmap_app. simpl. rewrite IH by lia.
    destruct (lookup_lt_is_Some_2 row0 k) as [y Hy]; [lia|].
    rewrite (drop_S _ _ _ Hy).
    rewrite <- (Nat.add_0_r k) at 1.
    replace (k + 0) with (length (F <$> seq 0 k) + 0)
      by (rewrite length_fmap, length_seq; lia).
    rewrite insert_app_r. simpl. by rewrite <- app_assoc.
Qed.

Lemma foldl_insert_seq_full {A} (F : nat → A) (row0 : list A) :
  foldl (λ row i, <[i := F i]> row) row0 (seq 0 (length row0))
  = F <$> seq 0 (length row0).
Proof.
  rewrite foldl_insert_seq by lia. by rewrite drop_all, app_nil_r.
Qed.

Lemma for_each_masked_assign ps : ∀ l v h,
  h !! l = Some (Grid3 v) →
  for_each ps (λ '(parcel, gfc_value), masked_assign l parcel gfc_value) h
  = Ok (tt, <[l := Grid3 ((λ x, foldl (λ x '(parcel, gfc_value),
                                 substitute parcel gfc_value x) x ps) <$> v)]> h).
Proof.
  induction ps as [|[p w] ps IH]; intros l v h Hl.
  - simpl. unfold mret. rewrite list_fmap_id. by rewrite list_insert_id.
  - simpl. unfold mbind at 1. unfold masked_assign at 1.
    unfold mbind at 1. unfold load3 at 1. rewrite Hl. simpl.
    pose proof (lookup_lt_Some _ _ _ Hl) as Hlt.
    rewrite (IH l (substitute p w <$> v)) by (by apply list_lookup_insert_eq).
    rewrite list_insert_insert_eq. rewrite <- list_fmap_compose. done.
Qed.

Lemma create_dgfc_volumes_unfold self h :
  create_dgfc_volumes self h =
  (let* template_voxels := load3 (parcel_img self) in
   let* volumes :=
     np_zeros4 (length template_voxels) (length (gdfc_matrix self)) in
   let* _ := for_each (seq 0 (length (gdfc_matrix self)))
               (frame_body (parcel_img self) volumes (gdfc_matrix self)) in
   mret (mk_I2Run (parcel_img self) (gdfc_matrix self) (Some volumes))) h.
Proof. done. Qed.

Lemma paint_length i frame rows :
  length rows = length frame → length (paint i frame rows) = length rows.
Proof. intros H. unfold paint. by rewrite length_zip_with_l_eq. Qed.

Lemma frame_body_spec tmpl vol gdfc i g vox n rows (h : heap) :
  h !! tmpl = Some (Grid3 vox) →
  h !! vol = Some (Grid4 n rows) →
  length rows = length vox →
  gdfc !! i = Some g →
  frame_body tmpl vol gdfc i h
  = Ok (tt, <[vol := Grid4 n (paint i (relabel g <$> vox) rows)]>
              (h ++ [Grid3 (relabel g <$> vox)])).
Proof.
  intros Ht Hv Hlen Hg.
  pose proof (lookup_lt_Some _ _ _ Hv) as Hvlt.
  unfold frame_body, np_copy.
  unfold mbind at 1. unfold mbind at 1. unfold load3 at 1. rewrite Ht.
  unfold alloc. unfold mbind at 1. unfold getitem. rewrite Hg.
  unfold mret at 1. unfold mbind at 1.
  rewrite (for_each_masked_assign _ (length h) vox)
    by (by rewrite lookup_app_r, Nat.sub_diag by lia).
  replace (<[length h := Grid3 ((λ x, foldl (λ x '(parcel, gfc_value),
             substitute parcel gfc_value x) x (enumerate1 g)) <$> vox)]>
             (h ++ [Grid3 vox]))
    with (h ++ [Grid3 (relabel g <$> vox)]).
  2:{ rewrite <- (Nat.add_0_r (length h)). by rewrite insert_app_r. }
  unfold setitem_frame. unfold mbind at 1. unfold load3.
  rewrite lookup_app_r, Nat.sub_diag by lia. simpl.
  unfold mbind at 1. unfold load4.
  rewrite lookup_app_l by lia. rewrite Hv.
  rewrite bool_decide_eq_true_2 by (by rewrite length_fmap).
  done.
Qed.

Lemma frame_loop_spec tmpl vol gdfc vox n : ∀ (frames : list nat)
    (h : heap) rows,
  h !! tmpl = Some (Grid3 vox) →
  h !! vol = Some (Grid4 n rows) →
  length rows = length vox →
  Forall (λ i, i < length gdfc) frames →
  ∃ h' : heap,
    for_each frames (frame_body tmpl vol gdfc) h = Ok (tt, h')
    ∧ length h ≤ length h'
    ∧ (∀ l, l < length h → l ≠ vol → h' !! l = h !! l)
    ∧ h' !! vol
      = Some (Grid4 n
          (foldl (λ rows i,
                    paint i (relabel (default [] (gdfc !! i)) <$> vox) rows)
                 rows frames)).
Proof.
  induction frames as [|i frames IH]; intros h rows Ht Hv Hlen Hin.
  - exists h. by simpl.
  - inversion Hin as [|? ? Hi Hin']; subst.
    destruct (lookup_lt_is_Some_2 gdfc i Hi) as [g Hg].
    pose proof (lookup_lt_Some _ _ _ Hv) as Hvlt.
    pose proof (lookup_lt_Some _ _ _ Ht) as Htlt.
    assert (tmpl ≠ vol) as Hne by (intros ->; congruence).
    simpl. unfold mbind at 1.
    rewrite (frame_body_spec tmpl vol gdfc i g vox n rows h) by done.
    set (h1 := <[vol := _]> (h ++ _)).
    destruct (IH h1 (paint i (relabel g <$> vox) rows))
      as (h' & Hrun & Hle & Hframe & Hvol).
    + subst h1. rewrite list_lookup_insert_ne by done.
      by rewrite lookup_app_l by lia.
    + subst h1. apply list_lookup_insert_eq. rewrite length_app. lia.
    + rewrite paint_length; by rewrite ?length_fmap.
    + done.
    + exists h'. split; [done|]. split.
      { subst h1. rewrite length_insert, length_app in Hle. lia. }
      split.
      * intros l Hl Hlv. rewrite Hframe.
        -- subst h1. rewrite list_lookup_insert_ne by done.
           by rewrite lookup_app_l by lia.
        -- subst h1. rewrite length_insert, length_app. lia.
        -- done.
      * rewrite Hvol. simpl. by rewrite Hg.
Qed.

Lemma paint_loop_lookup (F : nat → num → num) vox : ∀ (frames : list nat)
    rows v x row,
  vox !! v = Some x →
  rows !! v = Some row →
  foldl (λ rows i, paint i (F i <$> vox) rows) rows frames !! v
  = Some (foldl (λ row i, <[i := F i x]> row) row frames).
Proof.
  induction frames as [|i frames IH]; intros rows v x row Hx Hrow; [done|].
  simpl. apply IH; [done|].
  unfold paint. rewrite lookup_zip_with, Hrow. simpl.
  by rewrite list_lookup_fmap, Hx.
Qed.

(** The reconstruction returns, leaves every array that existed before
    untouched, and fills frame [f] of voxel [v] with the label of the voxel
    run through the substitutions of frame [f]. *)
Lemma create_dgfc_volumes_spec self (h : heap) vox :
  h !! parcel_img self = Some (Grid3 vox) →
  ∃ h' : heap,
    create_dgfc_volumes self h
    = Ok (mk_I2Run (parcel_img self) (gdfc_matrix self) (Some (length h)), h')
    ∧ (∀ l, l < length h → h' !! l = h !! l)
    ∧ (∀ v f x g,
         vox !! v = Some x →
         gdfc_matrix self !! f = Some g →
         voxel_at h' (length h) v f = Some (relabel g x)).
Proof.
  intros Ht.
  pose proof (lookup_lt_Some _ _ _ Ht) as Htlt.
  set (n := length (gdfc_matrix self)).
  set (rows0 := replicate (length vox) (replicate n zero)).
  destruct (frame_loop_spec (parcel_img self) (length h) (gdfc_matrix self)
              vox n (seq 0 n) (h ++ [Grid4 n rows0]) rows0)
    as (h' & Hrun & Hle & Hframe & Hvol).
  - by rewrite lookup_app_l by lia.
  - by rewrite lookup_app_r, Nat.sub_diag by lia.
  - subst rows0. by rewrite length_replicate.
  - apply Forall_forall. intros i Hi. apply in_seq in Hi. lia.
  - exists h'. rewrite create_dgfc_volumes_unfold.
    unfold mbind at 1. unfold load3. rewrite Ht.
    unfold mbind at 1. unfold np_zeros4, alloc.
    unfold mbind at 1. fold n. fold rows0. rewrite Hrun.
    split; [done|]. split.
    + intros l Hl. rewrite Hframe.
      * by rewrite lookup_app_l by lia.
      * rewrite length_app. lia.
      * lia.
    + intros v f x g Hx Hg. unfold voxel_at. rewrite Hvol.
      pose proof (lookup_lt_Some _ _ _ Hx) as Hv.
      pose proof (lookup_lt_Some _ _ _ Hg) as Hf.
      rewrite (paint_loop_lookup
                 (λ i, relabel (default [] (gdfc_matrix self !! i)))
                 vox (seq 0 n) rows0 v x (replicate n zero)); [|done|].
      2:{ subst rows0. by apply lookup_replicate_2. }
      simpl.
      rewrite <- (length_replicate n zero) at 2.
      rewrite (foldl_insert_seq_full
                 (λ i, relabel (default [] (gdfc_matrix self !! i)) x)).
      rewrite length_replicate, list_lookup_fmap.
      rewrite lookup_seq_lt by done. simpl. by rewrite Hg.
Qed.

Lemma label_0 : label 0 = zero.
Proof. unfold label, int_to_float, zero. by rewrite Z2Qc_inj_0. Qed.

Lemma relabel_outside g (z : Z) :
  (z < 1 ∨ Z.of_nat (length g) < z)%Z → relabel g (label z) = label z.
Proof.
  intros Hz. rewrite relabel_eq. apply relabel_from_miss.
  intros p Hp E. apply int_to_float_inj in E. lia.
Qed.

Lemma relabel_inside g (l : nat) v :
  1 ≤ l →
  g !! (l - 1) = Some v →
  (∀ p, l < p ≤ length g → v ≠ label (Z.of_nat p)) →
  relabel g (label (Z.of_nat l)) = v.
Proof.
  intros Hl Hg Hv. rewrite relabel_eq.
  apply relabel_from_hit; [done|done|].
  intros p Hp. apply Hv. lia.
Qed.

(** A value below 2 that is not 1 either, such as a mean of correlations
    that are not all equal to 1, never meets a later parcel. *)
Lemma small_value_is_no_later_label q (l p : nat) :
  (q < 2)%Qc → 1 ≤ l → l < p → Fin q ≠ label (Z.of_nat p).
Proof.
  intros Hq Hl Hp E. unfold label, int_to_float in E.
  assert (q = Qc_of_Z (Z.of_nat p)) as -> by congruence.
  rewrite <- Z2Qc_inj_2 in Hq. apply Z2Qc_inj_lt in Hq. lia.
Qed.

Lemma in_unit_range_finite x : in_unit_range x → ∃ q, x = Fin q ∧ (-1 ≤ q ≤ 1)%Qc.
Proof. destruct x as [| |q]; try done. intros Hq. by exists q. Qed.

(** ** Claims on the reconstruction *)

(** A value that is NaN or lies between -1 and 1 is the number of no
    parcel from the second on. *)
Lemma correlation_value_is_no_later_label x (l p : nat) :
  x = NaN ∨ in_unit_range x → 1 ≤ l → l < p → x ≠ label (Z.of_nat p).
Proof.
  intros [->|Hx] Hl Hp; [done|].
  destruct (in_unit_range_finite x Hx) as (q & -> & _ & Hq).
  apply (small_value_is_no_later_label q l p); [|done|done].
  eapply Qcle_lt_trans; [exact Hq|]. by vm_compute.
Qed.

(** C1: for a label volume and a sequence of global vectors of length [R]
    ([global_vector]: [R] values, each NaN or between -1 and 1), the
    reconstruction returns a 4D array in which, at every frame [f], a
    voxel whose label is [l] with [1 ≤ l ≤ R] holds
    [GlobalVector[f][l-1]], and a voxel whose label is 0 holds 0. *)
Theorem reconstruction_voxel_values self (h : heap) vox R :
  h !! parcel_img self = Some (Grid3 vox) →
  Forall (global_vector R) (gdfc_matrix self) →
  ∃ self' (h' : heap) out,
    create_dgfc_volumes self h = Ok (self', h')
    ∧ gdfc_img self' = Some out
    ∧ ∀ v f g,
        gdfc_matrix self !! f = Some g →
        (vox !! v = Some (label 0) → voxel_at h' out v f = Some zero)
        ∧ (∀ l : nat,
             1 ≤ l ≤ R →
             vox !! v = Some (label (Z.of_nat l)) →
             voxel_at h' out v f = g !! (l - 1)).
Proof.
  intros Ht Hvectors.
  destruct (create_dgfc_volumes_spec self h vox Ht) as (h' & Hrun & _ & Hvox).
  eexists _, h', (length h). split; [exact Hrun|]. split; [done|].
  intros v f g Hg.
  rewrite Forall_lookup in Hvectors.
  destruct (Hvectors f g Hg) as [Hlen Hvalues].
  split.
  - intros Hv. rewrite (Hvox v f _ g Hv Hg).
    rewrite relabel_outside by lia. by rewrite label_0.
  - intros l Hl Hv.
    destruct (lookup_lt_is_Some_2 g (l - 1)) as [w Hw]; [lia|].
    rewrite (Hvox v f _ g Hv Hg), Hw. f_equal.
    apply relabel_inside; [lia|done|].
    intros p Hlp. apply (correlation_value_is_no_later_label w l p); [|lia|lia].
    rewrite Forall_lookup in Hvalues. by apply (Hvalues (l - 1)).
Qed.

Lemma reconstruction_voxel_values_witness :
  ∃ self' (h' : heap) out,
    create_dgfc_volumes example_run example_heap = Ok (self', h')
    ∧ gdfc_img self' = Some out
    ∧ voxel_at h' out 1 0 = Some zero
    ∧ voxel_at h' out 1 1 = Some zero
    ∧ voxel_at h' out 0 0 = Some (Fin half)
    ∧ voxel_at h' out 2 0 = Some (Fin (- half)%Qc)
    ∧ voxel_at h' out 0 1 = Some NaN
    ∧ voxel_at h' out 2 1 = Some (Fin half).
Proof.
  assert (Forall (global_vector 2) (gdfc_matrix example_run)) as Hvectors.
  { repeat (first [apply List.Forall_nil | apply List.Forall_cons]);
      (split; [reflexivity|]);
      repeat (first [apply List.Forall_nil | apply List.Forall_cons]);
      first [by left | right; split; by vm_compute]. }
  destruct (reconstruction_voxel_values example_run example_heap
              example_labels 2 eq_refl Hvectors)
    as (self' & h' & out & Hrun & Hout & Hvox).
  exists self', h', out. split; [exact Hrun|]. split; [exact Hout|].
  split; [|split; [|split; [|split; [|split]]]].
  - apply (proj1 (Hvox 1 0 _ eq_refl)). reflexivity.
  - apply (proj1 (Hvox 1 1 _ eq_refl)). reflexivity.
  - apply (proj2 (Hvox 0 0 _ eq_refl) 1); [lia|reflexivity].
  - apply (proj2 (Hvox 2 0 _ eq_refl) 2); [lia|reflexivity].
  - apply (proj2 (Hvox 0 1 _ eq_refl) 1); [lia|reflexivity].
  - apply (proj2 (Hvox 2 1 _ eq_refl) 2); [lia|reflexivity].
Defined.

(** C9, as stated, fails: nothing in the reconstruction inspects the range
    of the labels.  With two parcels, a label volume holding the labels 7
    and -1 is reconstructed without any exception. *)
Lemma reconstruction_accepts_any_label :
  example_labels !! 3 = Some (label 7)
  ∧ example_labels !! 4 = Some (label (-1))
  ∧ Forall (λ g, length g = 2) (gdfc_matrix example_run)
  ∧ succeeds (create_dgfc_volumes example_run example_heap).
Proof.
  split; [done|]. split; [done|]. split; [by repeat constructor|].
  by vm_compute.
Qed.

(** C9, amended: the reconstruction raises no range error; it returns an
    output volume in which a voxel whose label is negative or greater than
    [R] keeps that label as its value in every frame. *)
Theorem reconstruction_keeps_unknown_labels self (h : heap) vox :
  h !! parcel_img self = Some (Grid3 vox) →
  ∃ self' (h' : heap) out,
    create_dgfc_volumes self h = Ok (self', h')
    ∧ gdfc_img self' = Some out
    ∧ ∀ v f g (z : Z),
        gdfc_matrix self !! f = Some g →
        vox !! v = Some (label z) →
        (z < 0 ∨ Z.of_nat (length g) < z)%Z →
        voxel_at h' out v f = Some (label z).
Proof.
  intros Ht.
  destruct (create_dgfc_volumes_spec self h vox Ht) as (h' & Hrun & _ & Hvox).
  eexists _, h', (length h). split; [exact Hrun|]. split; [done|].
  intros v f g z Hg Hv Hz.
  rewrite (Hvox v f _ g Hv Hg). f_equal. apply relabel_outside. lia.
Qed.

Lemma reconstruction_keeps_unknown_labels_witness :
  ∃ self' (h' : heap) out,
    create_dgfc_volumes example_run example_heap = Ok (self', h')
    ∧ gdfc_img self' = Some out
    ∧ voxel_at h' out 3 0 = Some (label 7)
    ∧ voxel_at h' out 4 1 = Some (label (-1)).
Proof.
  destruct (reconstruction_keeps_unknown_labels example_run example_heap
              example_labels eq_refl)
    as (self' & h' & out & Hrun & Hout & Hvox).
  exists self', h', out. split; [exact Hrun|]. split; [exact Hout|]. split.
  - apply (Hvox 3 0 _ 7%Z eq_refl eq_refl). simpl. lia.
  - apply (Hvox 4 1 _ (-1)%Z eq_refl eq_refl). simpl. lia.
Defined.

(** C10: the reconstruction returns, and afterwards the label volume holds
    the labels it held before; so does every array that existed before the
    call, the output being an array allocated by the call. *)
Theorem reconstruction_preserves_label_volume self (h : heap) vox :
  voxels_of h (parcel_img self) = Some vox →
  ∃ self' (h' : heap),
    create_dgfc_volumes self h = Ok (self', h')
    ∧ parcel_img self' = parcel_img self
    ∧ voxels_of h' (parcel_img self') = Some vox
    ∧ (∀ l, l < length h → h' !! l = h !! l)
    ∧ gdfc_img self' = Some (length h).
Proof.
  intros Hvox.
  assert (h !! parcel_img self = Some (Grid3 vox)) as Ht.
  { unfold voxels_of in Hvox.
    destruct (h !! parcel_img self) as [[w|? ?]|]; congruence. }
  destruct (create_dgfc_volumes_spec self h vox Ht) as (h' & Hrun & Hold & _).
  eexists _, h'. split; [exact Hrun|]. simpl. split; [done|].
  split; [|split; [exact Hold|done]].
  unfold voxels_of. rewrite Hold by (by eapply lookup_lt_Some). by rewrite Ht.
Qed.

Lemma reconstruction_preserves_label_volume_witness :
  ∃ self' (h' : heap),
    create_dgfc_volumes colliding_run example_heap = Ok (self', h')
    ∧ parcel_img self' = 0
    ∧ voxels_of h' (parcel_img self') = Some example_labels
    ∧ (∀ l, l < 1 → h' !! l = example_heap !! l)
    ∧ gdfc_img self' = Some 1.
Proof.
  exact (reconstruction_preserves_label_volume colliding_run example_heap
           example_labels eq_refl).
Defined.

(** ** Segmentation arithmetic *)

Lemma full_windows_count (T ws step : Z) (i : nat) :
  (0 < step)%Z →
  (Z.of_nat i < (T - ws) / step + 1)%Z ↔ (Z.of_nat i * step + ws ≤ T)%Z.
Proof.
  intros Hstep. split.
  - intros Hi.
    assert (Z.of_nat i ≤ (T - ws) / step)%Z as Hle by lia.
    pose proof (Z.mul_div_le (T - ws) step Hstep) as Hdiv.
    assert (Z.of_nat i * step ≤ (T - ws) / step * step)%Z by nia.
    lia.
  - intros Hi.
    assert (Z.of_nat i ≤ (T - ws) / step)%Z; [|lia].
    apply Z.div_le_lower_bound; lia.
Qed.

Lemma slice_bound_inside len (k : Z) :
  (0 ≤ k ≤ Z.of_nat len)%Z → slice_bound len k = Z.to_nat k.
Proof.
  intros Hk. unfold slice_bound.
  rewrite bool_decide_eq_false_2 by lia. f_equal. lia.
Qed.

Lemma slice_rows_inside {A} (xs : list A) (a w : Z) :
  (0 ≤ a)%Z → (0 ≤ w)%Z → (a + w ≤ Z.of_nat (length xs))%Z →
  slice_rows xs a (a + w) = take (Z.to_nat w) (drop (Z.to_nat a) xs).
Proof.
  intros Ha Hw Hlen. unfold slice_rows.
  rewrite !slice_bound_inside by lia. f_equal. lia.
Qed.

Lemma window_timeseries_inside (ts : matrix) (ws step : Z) (i : nat) :
  (0 < ws)%Z → (0 < step)%Z →
  (Z.of_nat i * step + ws ≤ Z.of_nat (length ts))%Z →
  window_timeseries ts ws step i
  = take (Z.to_nat ws) (drop (Z.to_nat (Z.of_nat i * step)) ts).
Proof.
  intros Hws Hstep Hfit. unfold window_timeseries.
  apply slice_rows_inside; nia.
Qed.

Lemma window_timeseries_shape (ts : matrix) (ws step : Z) (i : nat) c :
  (0 < ws)%Z → (0 < step)%Z →
  (Z.of_nat i * step + ws ≤ Z.of_nat (length ts))%Z →
  Forall (λ row, length row = c) ts →
  has_shape (window_timeseries ts ws step i) (Z.to_nat ws) c.
Proof.
  intros Hws Hstep Hfit Hcols.
  rewrite window_timeseries_inside by done. split.
  - rewrite length_take, length_drop. nia.
  - by apply Forall_take, Forall_drop.
Qed.

(** ** Shapes through [stationary_fc] and the assignment into the stack *)

Lemma fill_diagonal_shape (M : matrix) v r c :
  has_shape M r c → has_shape (fill_diagonal M v) r c.
Proof.
  intros [Hr Hc]. unfold fill_diagonal. split.
  - by rewrite length_imap.
  - apply Forall_lookup. intros i row Hrow.
    rewrite list_lookup_imap in Hrow.
    destruct (M !! i) as [row0|] eqn:E; [|done].
    simpl in Hrow. injection Hrow as <-. rewrite length_insert.
    rewrite Forall_lookup in Hc. by apply (Hc i).
Qed.

Lemma stationary_fc_shape corr (w : matrix) r c :
  measure_shape corr → 1 ≤ r → has_shape w r c →
  has_shape (stationary_fc corr w) c c.
Proof.
  intros Hm Hr Hw. unfold stationary_fc.
  apply fill_diagonal_shape. by apply (Hm w r c).
Qed.

Lemma broadcast_axis_same {A} (xs : list A) n :
  length xs = n → broadcast_axis n xs = Some xs.
Proof. intros H. unfold broadcast_axis. by rewrite bool_decide_eq_true_2. Qed.

Lemma broadcast_axis_mismatch {A} (xs : list A) n :
  length xs ≠ n → length xs ≠ 1 → broadcast_axis n xs = None.
Proof.
  intros Hn H1. unfold broadcast_axis.
  rewrite bool_decide_eq_false_2 by done.
  destruct xs as [|x [|y xs]]; simpl in *; [done|lia|done].
Qed.

Lemma mapM_broadcast_same (M : matrix) c :
  Forall (λ row, length row = c) M → mapM (broadcast_axis c) M = Some M.
Proof.
  induction 1 as [|row M Hrow _ IH]; [done|].
  simpl. rewrite broadcast_axis_same by done. simpl.
  fold (mapM (broadcast_axis c) M). by rewrite IH.
Qed.

Lemma broadcast_to_same (M : matrix) r c :
  has_shape M r c → broadcast_to r c M = Some M.
Proof.
  intros [Hr Hc]. unfold broadcast_to.
  rewrite mapM_broadcast_same by done. simpl.
  by apply broadcast_axis_same.
Qed.

Lemma broadcast_to_mismatch (M : matrix) R n :
  has_shape M R R → R ≠ n → R ≠ 1 → broadcast_to n n M = None.
Proof.
  intros [Hr Hc] Hn H1. unfold broadcast_to.
  destruct M as [|row M].
  - simpl in *. apply broadcast_axis_mismatch; simpl; lia.
  - inversion Hc as [|? ? Hrow _]. simpl.
    by rewrite broadcast_axis_mismatch by (simpl in *; lia).
Qed.

(** ** The loop over windows *)

Lemma dynamic_fc_unfold corr (ts : matrix) ws step fms :
  dynamic_fc corr ts ws step fms =
  (let! q := py_floordiv (Z.of_nat (length ts) - ws) step in
   let! dfc_matrix := np_zeros3 (q + 1) 100 100 in
   let! window_timestamps := np_zeros1 (q + 1) in
   for_state (py_range (q + 1))
     (λ i '(dfc_matrix, window_timestamps),
        let! dfc_matrix :=
          setitem_broadcast dfc_matrix i
            (stationary_fc corr (window_timeseries ts ws step i)) in
        Ok (dfc_matrix,
            <[i := window_timestamp ws step fms i]> window_timestamps))
     (dfc_matrix, window_timestamps)).
Proof. done. Qed.

Lemma window_loop_returns corr (ts : matrix) ws step fms n r c :
  ∀ (windows : list nat) d (stamps : list Qc),
  shape3 d = (n, r, c) →
  Forall (λ i, i < n
               ∧ has_shape (stationary_fc corr (window_timeseries ts ws step i))
                   r c) windows →
  for_state windows
     (λ i '(dfc_matrix, window_timestamps),
        let! dfc_matrix :=
          setitem_broadcast dfc_matrix i
            (stationary_fc corr (window_timeseries ts ws step i)) in
        Ok (dfc_matrix,
            <[i := window_timestamp ws step fms i]> window_timestamps))
     (d, stamps)
  = Ok (mk_ndarray3 (n, r, c)
          (foldl (λ its i,
                    <[i := stationary_fc corr (window_timeseries ts ws step i)]>
                      its) (items d) windows),
        foldl (λ st i, <[i := window_timestamp ws step fms i]> st)
          stamps windows).
Proof.
  induction windows as [|i windows IH]; intros d stamps Hd Hall.
  - simpl. destruct d as [sh its]. simpl in *. by subst.
  - inversion Hall as [|? ? [Hi Hshape] Hall']; subst.
    simpl. unfold setitem_broadcast. rewrite Hd.
    rewrite bool_decide_eq_true_2 by done.
    rewrite broadcast_to_same by done. simpl.
    by rewrite IH.
Qed.

Lemma first_window_raises corr (ts : matrix) ws step fms n k d
    (stamps : list Qc) :
  shape3 d = (n, 100, 100) →
  0 < n →
  broadcast_to 100 100 (stationary_fc corr (window_timeseries ts ws step 0))
  = None →
  for_state (seq 0 (S k))
     (λ i '(dfc_matrix, window_timestamps),
        let! dfc_matrix :=
          setitem_broadcast dfc_matrix i
            (stationary_fc corr (window_timeseries ts ws step i)) in
        Ok (dfc_matrix,
            <[i := window_timestamp ws step fms i]> window_timestamps))
     (d, stamps)
  = Raise ValueError.
Proof.
  intros Hd Hn Hb. simpl. unfold setitem_broadcast. rewrite Hd.
  rewrite bool_decide_eq_true_2 by done. by rewrite Hb.
Qed.

(** With 100 regions and valid parameters the computation returns the
    stack of the window matrices and their timestamps. *)
Lemma dynamic_fc_returns corr (ts : matrix) ws step fms :
  measure_shape corr →
  Forall (λ row, length row = 100) ts →
  (0 < ws ≤ Z.of_nat (length ts))%Z →
  (0 < step)%Z →
  dynamic_fc corr ts ws step fms
  = Ok (mk_ndarray3
          (Z.to_nat ((Z.of_nat (length ts) - ws) / step + 1), 100, 100)
          ((λ i, stationary_fc corr (window_timeseries ts ws step i))
             <$> seq 0 (Z.to_nat ((Z.of_nat (length ts) - ws) / step + 1))),
        window_timestamp ws step fms
          <$> seq 0 (Z.to_nat ((Z.of_nat (length ts) - ws) / step + 1))).
Proof.
  intros Hm Hcols Hws Hstep.
  rewrite dynamic_fc_unfold. unfold py_floordiv.
  rewrite bool_decide_eq_false_2 by lia. simpl.
  set (n := ((Z.of_nat (length ts) - ws) / step + 1)%Z).
  assert (0 ≤ (Z.of_nat (length ts) - ws) / step)%Z
    by (apply Z.div_pos; lia).
  unfold np_zeros3, np_zeros1.
  rewrite !bool_decide_eq_false_2 by lia. simpl. unfold py_range.
  rewrite (window_loop_returns corr ts ws step fms (Z.to_nat n) 100 100).
  - simpl. f_equal. f_equal.
    + f_equal.
      rewrite <- (length_replicate (Z.to_nat n)
                    (replicate 100 (replicate 100 zero))) at 2.
      rewrite foldl_insert_seq_full. by rewrite length_replicate.
    + rewrite <- (length_replicate (Z.to_nat n) 0%Qc) at 2.
      rewrite foldl_insert_seq_full. by rewrite length_replicate.
  - done.
  - apply Forall_forall. intros i Hi. apply in_seq in Hi.
    split; [lia|].
    assert (Z.of_nat i * step + ws ≤ Z.of_nat (length ts))%Z as Hfit.
    { apply full_windows_count; [done|]. fold n. lia. }
    apply (stationary_fc_shape corr _ (Z.to_nat ws) 100); [done|lia|].
    apply window_timeseries_shape; [lia|lia|done|done].
Qed.

(** With any other number of regions the first assignment into the stack,
    which was allocated for 100 regions, raises. *)
Lemma dynamic_fc_raises corr (ts : matrix) R ws step fms :
  measure_shape corr →
  Forall (λ row, length row = R) ts →
  R ≠ 100 → R ≠ 1 →
  (0 < ws ≤ Z.of_nat (length ts))%Z →
  (0 < step)%Z →
  dynamic_fc corr ts ws step fms = Raise ValueError.
Proof.
  intros Hm Hcols H100 H1 Hws Hstep.
  rewrite dynamic_fc_unfold. unfold py_floordiv.
  rewrite bool_decide_eq_false_2 by lia. simpl.
  set (n := ((Z.of_nat (length ts) - ws) / step + 1)%Z).
  assert (0 ≤ (Z.of_nat (length ts) - ws) / step)%Z
    by (apply Z.div_pos; lia).
  unfold np_zeros3, np_zeros1.
  rewrite !bool_decide_eq_false_2 by lia. simpl. unfold py_range.
  destruct (Z.to_nat n) as [|k] eqn:En; [lia|].
  apply (first_window_raises corr ts ws step fms (S k)); [done|lia|].
  apply (broadcast_to_mismatch _ R); [|done|done].
  apply (stationary_fc_shape corr _ (Z.to_nat ws) R); [done|lia|].
  apply window_timeseries_shape; [lia|lia| |done]. lia.
Qed.

(** ** Examples for the windowed computation *)

Lemma identity_measure_shape : measure_shape identity_measure.
Proof.
  intros w r c Hr [Hlen Hcols]. unfold identity_measure.
  destruct w as [|row w]; [simpl in *; lia|].
  inversion Hcols as [|? ? Hrow _]; subst. simpl.
  apply fill_diagonal_shape. split.
  - by rewrite length_replicate.
  - apply Forall_replicate. by rewrite length_replicate.
Qed.

Lemma ramp_rows T R : length (ramp T R) = T.
Proof. unfold ramp. by rewrite length_fmap, length_seq. Qed.

Lemma ramp_columns T R : Forall (λ row, length row = R) (ramp T R).
Proof.
  unfold ramp. apply Forall_forall. intros row Hrow.
  apply in_map_iff in Hrow as (t & <- & _).
  by rewrite length_fmap, length_seq.
Qed.

(** ** Claims on the windowed computation *)

(** C2: the claim is right and the code is not general.  The stack is
    allocated as [np.zeros((n_windows, 100, 100))]: for a series with [R]
    regions, [R ≥ 2] and [R ≠ 100], and valid window parameters, the
    assignment of the first [R × R] matrix raises [ValueError], and no
    stack of shape [n_windows × R × R] is returned. *)
Theorem dynamic_fc_rejects_other_region_counts corr (ts : matrix) R ws step
    fms :
  measure_shape corr →
  has_shape ts (length ts) R →
  2 ≤ R → R ≠ 100 →
  (0 < ws ≤ Z.of_nat (length ts))%Z →
  (0 < step)%Z →
  dynamic_fc corr ts ws step fms = Raise ValueError.
Proof.
  intros Hm [_ Hcols] HR H100 Hws Hstep.
  apply (dynamic_fc_raises corr ts R); [done|done|done|lia|done|done].
Qed.

Lemma dynamic_fc_rejects_other_region_counts_witness :
  dynamic_fc identity_measure (ramp 10 3) 5 5 (Qc_of_Z 900) = Raise ValueError.
Proof.
  apply (dynamic_fc_rejects_other_region_counts identity_measure
           (ramp 10 3) 3 5 5 (Qc_of_Z 900)).
  - exact identity_measure_shape.
  - split; [reflexivity | apply ramp_columns].
  - lia.
  - lia.
  - rewrite ramp_rows. lia.
  - lia.
Defined.

(** C4: the claim is right and the code does not get that far.  For
    [0 < window_size ≤ T] and [step_size > 0] the count
    [floor((T - window_size) / step_size) + 1] is at least 1 and the first
    window is made of the first [window_size] rows, as the claim says; but
    the stack is allocated as [np.zeros((n_windows, 100, 100))], so for a
    series with [R] regions, [R ≥ 2] and [R ≠ 100], the assignment of the
    first window's matrix raises [ValueError] and neither windows nor
    timestamps are returned.  This is the defect of C2. *)
Theorem segmentation_lost_for_other_region_counts corr (ts : matrix) R ws
    step fms :
  measure_shape corr →
  has_shape ts (length ts) R →
  2 ≤ R → R ≠ 100 →
  (0 < ws ≤ Z.of_nat (length ts))%Z →
  (0 < step)%Z →
  (1 ≤ (Z.of_nat (length ts) - ws) / step + 1)%Z
  ∧ window_timeseries ts ws step 0 = take (Z.to_nat ws) ts
  ∧ dynamic_fc corr ts ws step fms = Raise ValueError.
Proof.
  intros Hm [_ Hcols] HR H100 Hws Hstep.
  assert (0 ≤ (Z.of_nat (length ts) - ws) / step)%Z
    by (apply Z.div_pos; lia).
  split; [lia|]. split.
  - rewrite window_timeseries_inside by (done || lia).
    by replace (Z.to_nat (Z.of_nat 0 * step)) with 0 by lia.
  - apply (dynamic_fc_raises corr ts R); [done|done|done|lia|done|done].
Qed.

Lemma segmentation_lost_for_other_region_counts_witness :
  (1 ≤ (Z.of_nat (length (ramp 10 3)) - 5) / 5 + 1)%Z
  ∧ window_timeseries (ramp 10 3) 5 5 0 = take (Z.to_nat 5) (ramp 10 3)
  ∧ dynamic_fc identity_measure (ramp 10 3) 5 5 (Qc_of_Z 900)
    = Raise ValueError.
Proof.
  apply (segmentation_lost_for_other_region_counts identity_measure
           (ramp 10 3) 3 5 5 (Qc_of_Z 900)).
  - exact identity_measure_shape.
  - split; [reflexivity | apply ramp_columns].
  - lia.
  - lia.
  - rewrite ramp_rows. lia.
  - lia.
Defined.

(** The count of the specification's example: 100 samples, windows of 44
    samples, a step of 2. *)
Example twenty_nine_windows :
  match dynamic_fc identity_measure (ramp 100 100) 44 2 (Qc_of_Z 900) with
  | Ok (d, stamps) => shape3 d = (29, 100, 100) ∧ length stamps = 29
  | Raise _ => False
  end.
Proof. rewrite dynamic_fc_returns; [done|apply identity_measure_shape|apply ramp_columns|rewrite ramp_rows; lia|lia]. Qed.

(** A window as long as the series: exactly one window. *)
Example one_window_when_window_is_series corr (ts : matrix) step fms :
  (0 < Z.of_nat (length ts))%Z → (0 < step)%Z →
  measure_shape corr → Forall (λ row, length row = 100) ts →
  dynamic_fc corr ts (Z.of_nat (length ts)) step fms
  = Ok (mk_ndarray3 (1, 100, 100) [stationary_fc corr ts],
        [window_timestamp (Z.of_nat (length ts)) step fms 0]).
Proof.
  intros HT Hstep Hm Hcols. rewrite dynamic_fc_returns by (done || lia).
  rewrite Z.sub_diag, Z.div_0_l by lia. simpl.
  unfold window_timeseries, slice_rows. simpl.
  rewrite !slice_bound_inside by lia.
  replace (Z.of_nat 0 * step)%Z with 0%Z by lia.
  replace (0 + Z.of_nat (length ts))%Z with (Z.of_nat (length ts)) by lia.
  rewrite Nat2Z.id. simpl.
  rewrite Nat.sub_0_r. by rewrite firstn_all.
Qed.

(** ** Parameters outside the valid range *)

Lemma negative_quotient_minus_one (a b : Z) :
  (0 < b)%Z → (- b ≤ a < 0)%Z → (a / b = -1)%Z.
Proof.
  intros Hb Ha. symmetry. apply (Z.div_unique a b (-1) (a + b)); lia.
Qed.

Lemma negative_quotient_below (a b : Z) :
  (0 < b)%Z → (a < - b)%Z → (a / b < -1)%Z.
Proof. intros Hb Ha. apply Z.div_lt_upper_bound; lia. Qed.

(** C8, as stated, fails: no parameter is validated.  A window one sample
    longer than the series gives [n_windows = 0], and the computation
    returns an empty stack instead of failing; a negative step may return
    windows as well. *)
Lemma dynamic_fc_accepts_window_longer_than_series :
  length (ramp 10 100) = 10
  ∧ dynamic_fc identity_measure (ramp 10 100) 11 2 (Qc_of_Z 900)
    = Ok (mk_ndarray3 (0, 100, 100) [], [])
  ∧ succeeds (dynamic_fc identity_measure (ramp 10 100) 10 (-1) (Qc_of_Z 900)).
Proof. split; [done|]. split; [done|]. by vm_compute. Qed.

(** C8, amended: a step of zero fails with [ZeroDivisionError]; with a
    positive step, a window longer than the series yields
    [n_windows ≤ 0]: when the excess [window_size - T] is at most
    [step_size] (so for [window_size = T + 1]) the computation returns the
    empty stack of shape [0 × 100 × 100] and no timestamp, and otherwise
    it fails with [ValueError] when the stack is allocated.  Where it
    fails, nothing is returned. *)
Theorem dynamic_fc_outside_valid_range corr (ts : matrix) ws step frame_ms :
  (step = 0%Z →
   dynamic_fc corr ts ws step frame_ms = Raise ZeroDivisionError)
  ∧ ((0 < step)%Z → (Z.of_nat (length ts) < ws)%Z →
     dynamic_fc corr ts ws step frame_ms
     = if bool_decide (ws - Z.of_nat (length ts) ≤ step)%Z
       then Ok (mk_ndarray3 (0, 100, 100) [], [])
       else Raise ValueError).
Proof.
  split.
  - intros ->. by rewrite dynamic_fc_unfold.
  - intros Hstep Hws. rewrite dynamic_fc_unfold. unfold py_floordiv.
    rewrite bool_decide_eq_false_2 by lia. simpl. case_bool_decide as Hex.
    + rewrite negative_quotient_minus_one by lia. done.
    + pose proof (negative_quotient_below
                    (Z.of_nat (length ts) - ws) step Hstep ltac:(lia)).
      unfold np_zeros3. by rewrite bool_decide_eq_true_2 by lia.
Qed.

Lemma dynamic_fc_outside_valid_range_witness :
  dynamic_fc identity_measure (ramp 10 3) 5 0 (Qc_of_Z 900)
  = Raise ZeroDivisionError
  ∧ dynamic_fc identity_measure (ramp 10 3) 11 1 (Qc_of_Z 900)
    = Ok (mk_ndarray3 (0, 100, 100) [], [])
  ∧ dynamic_fc identity_measure (ramp 10 3) 13 2 (Qc_of_Z 900)
    = Raise ValueError.
Proof.
  split; [|split].
  - apply (proj1 (dynamic_fc_outside_valid_range identity_measure
                    (ramp 10 3) 5 0 (Qc_of_Z 900))). reflexivity.
  - apply (proj2 (dynamic_fc_outside_valid_range identity_measure
                    (ramp 10 3) 11 1 (Qc_of_Z 900))); reflexivity.
  - apply (proj2 (dynamic_fc_outside_valid_range identity_measure
                    (ramp 10 3) 13 2 (Qc_of_Z 900))); reflexivity.
Defined.

(** ** Sums along axis 0 *)

Lemma sum_rows_length (W : matrix) : ∀ acc : list num,
  Forall (λ row, length row = length acc) W →
  length (foldl (zip_with num_add) acc W) = length acc.
Proof.
  induction W as [|row W IH]; intros acc Hall; [done|].
  inversion Hall as [|? ? Hrow Hall']; subst. simpl.
  assert (length (zip_with num_add acc row) = length acc) as Hz
    by (by rewrite length_zip_with_l_eq).
  rewrite IH; rewrite Hz; done.
Qed.

Lemma sum_rows_lookup (W : matrix) : ∀ (acc : list num) j a,
  Forall (λ row, length row = length acc) W →
  acc !! j = Some a →
  foldl (zip_with num_add) acc W !! j = Some (foldl num_add a (column W j)).
Proof.
  induction W as [|row W IH]; intros acc j a Hall Ha; [done|].
  inversion Hall as [|? ? Hrow Hall']; subst. simpl.
  destruct (lookup_lt_is_Some_2 row j) as [x Hx].
  { rewrite Hrow. by eapply lookup_lt_Some. }
  rewrite (list_lookup_total_correct _ _ _ Hx).
  assert (length (zip_with num_add acc row) = length acc) as Hz
    by (by rewrite length_zip_with_l_eq).
  apply IH.
  - by rewrite Hz.
  - by rewrite lookup_zip_with, Ha, Hx.
Qed.

Lemma np_sum_axis0_length (W : matrix) r c :
  has_shape W r c → length (np_sum_axis0 c W) = c.
Proof.
  intros [_ Hc]. unfold np_sum_axis0.
  rewrite sum_rows_length; rewrite length_replicate; done.
Qed.

Lemma np_sum_axis0_lookup (W : matrix) r c j :
  has_shape W r c → j < c →
  np_sum_axis0 c W !! j = Some (foldl num_add zero (column W j)).
Proof.
  intros [_ Hc] Hj. unfold np_sum_axis0. apply sum_rows_lookup.
  - by rewrite length_replicate.
  - by apply lookup_replicate_2.
Qed.

Lemma entry_is_Some (W : matrix) r c i j :
  has_shape W r c → i < r → j < c → is_Some (entry W i j).
Proof.
  intros [Hr Hc] Hi Hj. unfold entry.
  destruct (lookup_lt_is_Some_2 W i) as [row Hrow]; [lia|].
  rewrite Hrow. simpl. apply lookup_lt_is_Some_2.
  rewrite Forall_lookup in Hc. by rewrite (Hc i row Hrow).
Qed.

Lemma column_lookup (W : matrix) r c i j :
  has_shape W r c → j < c → column W j !! i = entry W i j.
Proof.
  intros [Hr Hc] Hj. unfold column, entry. rewrite list_lookup_fmap.
  destruct (W !! i) as [row|] eqn:Hrow; [|done]. simpl.
  rewrite Forall_lookup in Hc.
  destruct (lookup_lt_is_Some_2 row j) as [x Hx];
    [by rewrite (Hc i row Hrow)|].
  by rewrite Hx, (list_lookup_total_correct _ _ _ Hx).
Qed.

(** In a symmetric matrix a column reads as the row of the same index. *)
Lemma column_of_symmetric (W : matrix) R j :
  has_shape W R R → symmetric W → j < R →
  column W j = default [] (W !! j).
Proof.
  intros Hshape Hsym Hj. apply list_eq. intros i.
  rewrite (column_lookup W R R) by done. rewrite Hsym.
  unfold entry. destruct Hshape as [Hr Hc].
  destruct (lookup_lt_is_Some_2 W j) as [row Hrow]; [lia|].
  by rewrite Hrow.
Qed.

(** The aggregate of one window. *)
Lemma dynamic_gfc_lookup (d : ndarray3) n r R w (W : matrix) :
  shape3 d = (n, r, R) →
  items d !! w = Some W →
  dynamic_gfc d !! w
  = Some ((λ s, num_div s (int_to_float (Z.of_nat R - 1)))
            <$> np_sum_axis0 R W).
Proof.
  intros Hd HW. unfold dynamic_gfc. rewrite Hd. simpl.
  by rewrite list_lookup_fmap, HW.
Qed.

Lemma dynamic_gfc_entry (d : ndarray3) n r R w (W : matrix) j :
  shape3 d = (n, r, R) →
  items d !! w = Some W →
  has_shape W r R →
  j < R →
  ∃ g, dynamic_gfc d !! w = Some g
       ∧ length g = R
       ∧ g !! j = Some (num_div (foldl num_add zero (column W j))
                          (int_to_float (Z.of_nat R - 1))).
Proof.
  intros Hd HW Hshape Hj. eexists. split; [by eapply dynamic_gfc_lookup|].
  split.
  - rewrite length_fmap. by eapply np_sum_axis0_length.
  - rewrite list_lookup_fmap.
    by rewrite (np_sum_axis0_lookup W r R j).
Qed.

(** ** NaN and finite values under summation *)

Lemma num_add_nan_l x : num_add NaN x = NaN.
Proof. done. Qed.

Lemma num_add_nan_r x : num_add x NaN = NaN.
Proof. by destruct x. Qed.

Lemma sum_from_nan (xs : list num) : foldl num_add NaN xs = NaN.
Proof. induction xs as [|x xs IH]; [done|]. simpl. done. Qed.

Lemma sum_with_nan (xs : list num) : ∀ a, NaN ∈ xs → foldl num_add a xs = NaN.
Proof.
  induction xs as [|x xs IH]; intros a Hin.
  - by apply elem_of_nil in Hin.
  - apply elem_of_cons in Hin as [<-|Hin]; simpl.
    + rewrite num_add_nan_r. apply sum_from_nan.
    + by apply IH.
Qed.

Lemma sum_of_finite (qs : list Qc) : ∀ a,
  foldl num_add (Fin a) (Fin <$> qs) = Fin (foldl Qcplus a qs).
Proof. induction qs as [|q qs IH]; intros a; [done|]. simpl. apply IH. Qed.

Lemma finite_list (xs : list num) :
  Forall is_finite xs → ∃ qs, xs = Fin <$> qs.
Proof.
  induction 1 as [|x xs Hx _ [qs ->]]; [by exists []|].
  destruct x as [| |q]; try done. by exists (q :: qs).
Qed.

Lemma num_div_finite a d : d ≠ 0%Qc → num_div (Fin a) (Fin d) = Fin (a / d)%Qc.
Proof. intros Hd. simpl. by rewrite bool_decide_eq_false_2. Qed.

Lemma parcels_minus_one_nonzero R : 2 ≤ R → Qc_of_Z (Z.of_nat R - 1) ≠ 0%Qc.
Proof.
  intros HR E. rewrite <- Z2Qc_inj_0 in E. apply Z2Qc_inj in E. lia.
Qed.

(** ** Examples for the aggregation *)

Lemma uniform_window_shape : has_shape uniform_window 3 3.
Proof. split; [done|]. by repeat constructor. Qed.

Lemma uniform_window_diagonal : zero_diagonal uniform_window.
Proof. intros i Hi. below_three i; done. Qed.

Lemma degenerate_window_shape : has_shape degenerate_window 3 3.
Proof. split; [done|]. by repeat constructor. Qed.

Lemma degenerate_window_pattern i j :
  i < 3 → j < 3 → i ≠ j → i = 0 ∨ j = 0 →
  entry degenerate_window i j = Some NaN.
Proof.
  intros Hi Hj Hij H0. below_three i; below_three j; try done; lia.
Qed.

Lemma uniform_window_finite i j x :
  entry uniform_window i j = Some x → is_finite x.
Proof.
  destruct i as [|[|[|i]]]; destruct j as [|[|[|j]]]; intros [= <-]; done.
Qed.

(** ** Claims on the aggregation *)

(** C3, as stated, fails: the mean of a region runs over the column of
    every region, the degenerate one included.  With region 0 degenerate
    in window 0, the aggregates of regions 1 and 2 in that window are NaN
    as well, although the correlation between regions 1 and 2 is a
    number. *)
Lemma nan_reaches_the_other_regions :
  entry degenerate_window 1 2 = Some (Fin half)
  ∧ (dynamic_gfc example_stack !! 0 ≫= λ g, g !! 1) = Some NaN
  ∧ (dynamic_gfc example_stack !! 0 ≫= λ g, g !! 2) = Some NaN.
Proof. split; [done|]. split; by vm_compute. Qed.

(** C3, amended: if region [k] has NaN in its row and its column, off the
    diagonal, in the matrix of window [w], then every element of the
    aggregate of window [w] is NaN; the aggregate of any window whose matrix
    holds only numbers holds only numbers. *)
Theorem degenerate_region_makes_window_nan (d : ndarray3) n R w (W : matrix)
    k :
  shape3 d = (n, R, R) →
  2 ≤ R →
  items d !! w = Some W →
  has_shape W R R →
  k < R →
  (∀ i j, i < R → j < R → i ≠ j → i = k ∨ j = k → entry W i j = Some NaN) →
  (∃ g,
     dynamic_gfc d !! w = Some g
     ∧ length g = R
     ∧ ∀ r, r < R → g !! r = Some NaN)
  ∧ (∀ w' (W' : matrix),
       items d !! w' = Some W' →
       has_shape W' R R →
       (∀ i j x, entry W' i j = Some x → is_finite x) →
       ∃ g',
         dynamic_gfc d !! w' = Some g'
         ∧ length g' = R
         ∧ ∀ r x, g' !! r = Some x → is_finite x).
Proof.
  intros Hd HR HW Hshape Hk Hnan. split.
  - eexists. split; [by eapply dynamic_gfc_lookup|]. split.
    { rewrite length_fmap. by eapply np_sum_axis0_length. }
    intros r Hr. rewrite list_lookup_fmap.
    rewrite (np_sum_axis0_lookup W R R r) by done. simpl. f_equal.
    rewrite sum_with_nan; [done|].
    apply list_elem_of_lookup.
    destruct (decide (r = k)) as [->|Hne].
    + exists (if decide (k = 0) then 1 else 0).
      rewrite (column_lookup W R R) by done.
      apply Hnan; [case_decide; lia|done|case_decide; lia|by right].
    + exists k. rewrite (column_lookup W R R) by done.
      apply Hnan; [done|done|done|by left].
  - intros w' W' HW' Hshape' Hfin.
    eexists. split; [by eapply dynamic_gfc_lookup|]. split.
    { rewrite length_fmap. by eapply np_sum_axis0_length. }
    intros r x Hx.
    assert (r < R) as Hr.
    { apply lookup_lt_Some in Hx.
      rewrite length_fmap, (np_sum_axis0_length W' R R) in Hx; done. }
    rewrite list_lookup_fmap in Hx.
    rewrite (np_sum_axis0_lookup W' R R r) in Hx by done.
    simpl in Hx. injection Hx as <-.
    destruct (finite_list (column W' r)) as [qs ->].
    { apply Forall_lookup. intros i y Hy.
      rewrite (column_lookup W' R R) in Hy by done. by eapply Hfin. }
    unfold zero, int_to_float. rewrite sum_of_finite.
    by rewrite num_div_finite by (by apply parcels_minus_one_nonzero).
Qed.

Lemma degenerate_region_makes_window_nan_witness :
  (∃ g,
     dynamic_gfc example_stack !! 0 = Some g
     ∧ length g = 3
     ∧ g !! 0 = Some NaN ∧ g !! 1 = Some NaN ∧ g !! 2 = Some NaN)
  ∧ (∃ g',
       dynamic_gfc example_stack !! 1 = Some g'
       ∧ length g' = 3
       ∧ ∀ r x, g' !! r = Some x → is_finite x).
Proof.
  destruct (degenerate_region_makes_window_nan example_stack 2 3 0
              degenerate_window 0 eq_refl ltac:(lia) eq_refl
              degenerate_window_shape ltac:(lia) degenerate_window_pattern)
    as [(g & Hg & Hlen & Hnan) Hother].
  split.
  - exists g. split; [exact Hg|]. split; [exact Hlen|].
    split; [|split]; apply Hnan; lia.
  - exact (Hother 1 uniform_window eq_refl uniform_window_shape
             uniform_window_finite).
Defined.

(** ** [stationary_fc]: the diagonal fill, and the example estimator *)

Lemma fill_diagonal_entry (M : matrix) v i j :
  entry (fill_diagonal M v) i j
  = if decide (i = j) then entry M i j ≫= (λ _, Some v) else entry M i j.
Proof.
  unfold entry, fill_diagonal. rewrite list_lookup_imap.
  destruct (M !! i) as [row|]; simpl; [|by case_decide].
  case_decide as Hij.
  - subst j. destruct (row !! i) as [x|] eqn:Hx; simpl.
    + apply list_lookup_insert_eq. by eapply lookup_lt_Some.
    + apply lookup_ge_None. rewrite length_insert.
      by apply lookup_ge_None.
  - by apply list_lookup_insert_ne.
Qed.

Lemma fill_diagonal_symmetric (M : matrix) v :
  symmetric M → symmetric (fill_diagonal M v).
Proof.
  intros Hsym i j. rewrite !fill_diagonal_entry.
  destruct (decide (i = j)) as [->|Hij].
  - by rewrite decide_True.
  - rewrite decide_False by done. apply Hsym.
Qed.

Lemma identity_measure_entry (ts : matrix) i j x :
  entry (identity_measure ts) i j = Some x → x = Fin 1%Qc ∨ x = zero.
Proof.
  unfold identity_measure. rewrite fill_diagonal_entry.
  case_decide as Hij.
  - destruct (entry _ i j); simpl; [|done]. intros [= <-]. by left.
  - unfold entry. intros Hx.
    destruct (replicate _ _ !! i) as [row|] eqn:Hrow; [|done].
    apply lookup_replicate in Hrow as [-> _]. simpl in Hx.
    apply lookup_replicate in Hx as [-> _]. by right.
Qed.

Lemma identity_measure_symmetric (ts : matrix) : symmetric (identity_measure ts).
Proof.
  unfold identity_measure. apply fill_diagonal_symmetric.
  intros i j. unfold entry.
  set (c := length (default [] (head ts))).
  destruct (decide (i < c)) as [Hi|Hi], (decide (j < c)) as [Hj|Hj].
  - rewrite !lookup_replicate_2 by done. simpl.
    by rewrite !lookup_replicate_2 by done.
  - rewrite (lookup_replicate_2 _ _ i) by done. simpl.
    rewrite (proj1 (lookup_replicate_None c zero j)) by lia.
    by rewrite (proj1 (lookup_replicate_None c _ j)) by lia.
  - rewrite (lookup_replicate_2 _ _ j) by done. simpl.
    rewrite (proj1 (lookup_replicate_None c zero i)) by lia.
    by rewrite (proj1 (lookup_replicate_None c _ i)) by lia.
  - by rewrite !(proj1 (lookup_replicate_None c _ _)) by lia.
Qed.

Lemma identity_measure_contract : correlation_contract identity_measure.
Proof.
  intros ts r c (Hshape & Hr & Hc & _). split; [|split].
  - apply (identity_measure_shape ts r c); [lia|done].
  - apply identity_measure_symmetric.
  - intros i j x Hx.
    destruct (identity_measure_entry ts i j x Hx) as [-> | ->];
      split; by vm_compute.
Qed.


(** ** Sums along axis 0, whatever the addition *)

Section axis0.
Context {A : Type} `{!Inhabited A} (add : A → A → A).

Lemma zip_rows_length (W : list (list A)) : ∀ acc : list A,
  Forall (λ row, length row = length acc) W →
  length (foldl (zip_with add) acc W) = length acc.
Proof.
  induction W as [|row W IH]; intros acc Hall; [done|].
  inversion Hall as [|? ? Hrow Hall']; subst. simpl.
  assert (length (zip_with add acc row) = length acc) as Hz
    by (by rewrite length_zip_with_l_eq).
  rewrite IH; rewrite Hz; done.
Qed.

Lemma zip_rows_lookup (W : list (list A)) : ∀ (acc : list A) j a,
  Forall (λ row, length row = length acc) W →
  acc !! j = Some a →
  foldl (zip_with add) acc W !! j
  = Some (foldl add a ((λ row, row !!! j) <$> W)).
Proof.
  induction W as [|row W IH]; intros acc j a Hall Ha; [done|].
  inversion Hall as [|? ? Hrow Hall']; subst. simpl.
  destruct (lookup_lt_is_Some_2 row j) as [x Hx].
  { rewrite Hrow. by eapply lookup_lt_Some. }
  rewrite (list_lookup_total_correct _ _ _ Hx).
  assert (length (zip_with add acc row) = length acc) as Hz
    by (by rewrite length_zip_with_l_eq).
  apply IH.
  - by rewrite Hz.
  - by rewrite lookup_zip_with, Ha, Hx.
Qed.

End axis0.

(** ** The aggregation in binary64 *)

Lemma F64_np_sum_axis0_length (W : F64.fmatrix) r c :
  F64.has_shape W r c → length (F64.np_sum_axis0 c W) = c.
Proof.
  intros [_ Hc]. unfold F64.np_sum_axis0.
  rewrite zip_rows_length; rewrite length_replicate; done.
Qed.

Lemma F64_np_sum_axis0_lookup (W : F64.fmatrix) r c j :
  F64.has_shape W r c → j < c →
  F64.np_sum_axis0 c W !! j = Some (F64.sum (F64.column W j)).
Proof.
  intros [_ Hc] Hj. unfold F64.np_sum_axis0, F64.sum, F64.column.
  apply zip_rows_lookup.
  - by rewrite length_replicate.
  - by apply lookup_replicate_2.
Qed.

Lemma F64_column_lookup (W : F64.fmatrix) r c i j :
  F64.has_shape W r c → j < c → F64.column W j !! i = F64.entry W i j.
Proof.
  intros [Hr Hc] Hj. unfold F64.column, F64.entry. rewrite list_lookup_fmap.
  destruct (W !! i) as [row|] eqn:Hrow; [|done]. simpl.
  rewrite Forall_lookup in Hc.
  destruct (lookup_lt_is_Some_2 row j) as [x Hx];
    [by rewrite (Hc i row Hrow)|].
  by rewrite Hx, (list_lookup_total_correct _ _ _ Hx).
Qed.

(** In a symmetric matrix a column reads as the row of the same index, so
    the sums along axis 0 are the sums of the rows, added in the same
    order. *)
Lemma F64_column_of_symmetric (W : F64.fmatrix) R j :
  F64.has_shape W R R → F64.symmetric W → j < R →
  F64.column W j = default [] (W !! j).
Proof.
  intros Hshape Hsym Hj. apply list_eq. intros i.
  rewrite (F64_column_lookup W R R) by done. rewrite Hsym.
  unfold F64.entry. destruct Hshape as [Hr Hc].
  destruct (lookup_lt_is_Some_2 W j) as [row Hrow]; [lia|].
  by rewrite Hrow.
Qed.

Lemma F64_dynamic_gfc_lookup (d : F64.ndarray3) n r R w (W : F64.fmatrix) :
  F64.shape3 d = (n, r, R) →
  F64.items d !! w = Some W →
  F64.dynamic_gfc d !! w
  = Some ((λ s, PrimFloat.div s (F64.float_of_int (Z.of_nat R - 1)))
            <$> F64.np_sum_axis0 R W).
Proof.
  intros Hd HW. unfold F64.dynamic_gfc. rewrite Hd. simpl.
  by rewrite list_lookup_fmap, HW.
Qed.

(** The row of a matrix with zero diagonal and the constant [c]
    elsewhere. *)
Lemma F64_constant_row (W : F64.fmatrix) R r c row :
  F64.has_shape W R R →
  F64.zero_diagonal W →
  (∀ i j, i < R → j < R → i ≠ j → F64.entry W i j = Some c) →
  r < R →
  W !! r = Some row →
  row = <[r := PrimFloat.zero]> (replicate R c).
Proof.
  intros [Hlen Hcols] Hdiag Hconst Hr Hrow. apply list_eq. intros j.
  rewrite Forall_lookup in Hcols. pose proof (Hcols r row Hrow) as Hl.
  destruct (decide (j < R)) as [Hj|Hj].
  - destruct (decide (j = r)) as [->|Hne].
    + rewrite list_lookup_insert_eq by (by rewrite length_replicate).
      specialize (Hdiag r ltac:(lia)). unfold F64.entry in Hdiag.
      by rewrite Hrow in Hdiag.
    + rewrite list_lookup_insert_ne by done.
      rewrite lookup_replicate_2 by done.
      specialize (Hconst r j Hr Hj ltac:(done)). unfold F64.entry in Hconst.
      by rewrite Hrow in Hconst.
  - rewrite lookup_ge_None_2 by lia.
    rewrite lookup_ge_None_2; [done|].
    rewrite length_insert, length_replicate. lia.
Qed.

Lemma tenth_window_shape : F64.has_shape F64.tenth_window 4 4.
Proof. split; [done|]. by repeat constructor. Qed.

Lemma tenth_window_symmetric : F64.symmetric F64.tenth_window.
Proof. by intros [|[|[|[|i]]]] [|[|[|[|j]]]]. Qed.

Lemma tenth_window_diagonal : F64.zero_diagonal F64.tenth_window.
Proof. intros i Hi. by below_four i. Qed.

Lemma tenth_window_constant i j :
  i < 4 → j < 4 → i ≠ j → F64.entry F64.tenth_window i j = Some F64.tenth.
Proof. intros Hi Hj Hij. by below_four i; below_four j. Qed.

(** The example values are the float64 nearest to the decimal numbers they
    stand for. *)
Example decimal_values :
  F64.int_truediv 1 10 = Ok F64.tenth
  ∧ F64.int_truediv 9 10 = Ok F64.nine_tenths
  ∧ F64.int_truediv 198 10 = Ok F64.f_19_8
  ∧ F64.int_truediv 234 10 = Ok F64.f_23_4
  ∧ PrimFloat.next_up F64.tenth = F64.above_tenth
  ∧ PrimFloat.next_up F64.f_23_4 = F64.above_23_4
  ∧ PrimFloat.next_up PrimFloat.zero = F64.smallest.
Proof. vm_compute. by repeat split. Qed.

(** ** Claims that depend on rounding *)

(** C7, as stated, fails in float64: the division of the rounded sum by
    [R - 1] does not give the constant back.  Four regions with the
    correlation 0.1 between every pair: each sum is 0.30000000000000004 and
    each element of the result is 0.10000000000000002, the float64 next
    above 0.1. *)
Lemma constant_mean_is_rounded :
  (∀ i j, i < 4 → j < 4 → i ≠ j →
     F64.entry F64.tenth_window i j = Some F64.tenth)
  ∧ F64.dynamic_gfc F64.tenth_stack
    = [[F64.above_tenth; F64.above_tenth; F64.above_tenth; F64.above_tenth]]
  ∧ PrimFloat.eqb F64.above_tenth F64.tenth = false
  ∧ PrimFloat.ltb F64.tenth F64.above_tenth = true.
Proof.
  split; [exact tenth_window_constant|]. vm_compute. by repeat split.
Qed.

(** C7, amended: for a stack of [R × R] matrices, [R ≥ 2], and a window
    whose matrix is symmetric with zero diagonal, the aggregate of the
    window has length [R] and its element [r] is the float64 sum of row
    [r], added in index order, divided in float64 by [R - 1]; if every
    entry off the diagonal is the constant [c], every element [r] is the
    float64 sum of the row [c, ..., 0, ..., c] divided by [R - 1], which is
    [c] up to rounding. *)
Theorem global_connectivity_is_row_mean (d : F64.ndarray3) n R w
    (W : F64.fmatrix) :
  F64.shape3 d = (n, R, R) →
  2 ≤ R →
  F64.items d !! w = Some W →
  F64.has_shape W R R →
  F64.symmetric W →
  F64.zero_diagonal W →
  ∃ g,
    F64.dynamic_gfc d !! w = Some g
    ∧ length g = R
    ∧ (∀ r, r < R →
         g !! r = Some (PrimFloat.div (F64.row_sum W r)
                          (F64.float_of_int (Z.of_nat R - 1))))
    ∧ (∀ c,
         (∀ i j, i < R → j < R → i ≠ j → F64.entry W i j = Some c) →
         ∀ r, r < R →
           g !! r
           = Some (PrimFloat.div
                     (F64.sum (<[r := PrimFloat.zero]> (replicate R c)))
                     (F64.float_of_int (Z.of_nat R - 1)))).
Proof.
  intros Hd HR HW Hshape Hsym Hdiag.
  assert (∀ r, r < R →
            (λ s, PrimFloat.div s (F64.float_of_int (Z.of_nat R - 1)))
              <$> F64.np_sum_axis0 R W !! r
            = Some (PrimFloat.div (F64.row_sum W r)
                      (F64.float_of_int (Z.of_nat R - 1))))
    as Hrow.
  { intros r Hr.
    rewrite (F64_np_sum_axis0_lookup W R R r) by done. simpl.
    by rewrite (F64_column_of_symmetric W R r). }
  eexists. split; [by eapply F64_dynamic_gfc_lookup|]. split.
  { rewrite length_fmap. by eapply F64_np_sum_axis0_length. }
  split.
  - intros r Hr. rewrite list_lookup_fmap. by apply Hrow.
  - intros c Hconst r Hr. rewrite list_lookup_fmap, Hrow by done.
    do 2 f_equal. unfold F64.row_sum.
    destruct (lookup_lt_is_Some_2 W r) as [row Hrowr];
      [destruct Hshape; lia|].
    rewrite Hrowr. simpl.
    by rewrite (F64_constant_row W R r c row).
Qed.

Lemma global_connectivity_is_row_mean_witness :
  ∃ g,
    F64.dynamic_gfc F64.tenth_stack !! 0 = Some g
    ∧ length g = 4
    ∧ g !! 0 = Some (PrimFloat.div (F64.row_sum F64.tenth_window 0)
                       (F64.float_of_int 3))
    ∧ g !! 2
      = Some (PrimFloat.div
                (F64.sum [F64.tenth; F64.tenth; PrimFloat.zero; F64.tenth])
                (F64.float_of_int 3)).
Proof.
  destruct (global_connectivity_is_row_mean F64.tenth_stack 1 4 0
              F64.tenth_window eq_refl ltac:(lia) eq_refl
              tenth_window_shape tenth_window_symmetric
              tenth_window_diagonal)
    as (g & Hg & Hlen & Hrow & Hconst).
  exists g. split; [exact Hg|]. split; [exact Hlen|]. split.
  - apply Hrow. lia.
  - apply (Hconst F64.tenth tenth_window_constant 2). lia.
Defined.




(** With the default parameters (windows of 44 samples, a step of 2, frames
    of 900 ms) the first 1000 timestamps do increase strictly. *)
Example default_timestamps_increase :
  forallb
    (λ i, match F64.window_timestamp 44 2 (F64.PyInt 900) i,
                F64.window_timestamp 44 2 (F64.PyInt 900) (S i) with
          | Ok a, Ok b => PrimFloat.ltb a b
          | _, _ => false
          end)
    (seq 0 1000)
  = true.
Proof. by vm_compute. Qed.

(** * Further properties of the module *)

(** ** [plot_agg_dgfc]: looking up labels and selecting columns *)

Lemma py_index_missing `{EqDecision A} (xs : list A) x :
  x ∉ xs → py_index xs x = Raise ValueError.
Proof.
  induction xs as [|y ys IH]; intros Hx; [done|].
  apply not_elem_of_cons in Hx as [Hne Hx]. simpl.
  rewrite decide_False by done. by rewrite IH.
Qed.

Lemma py_index_first `{EqDecision A} (xs : list A) x : ∀ k,
  xs !! k = Some x →
  (∀ j, j < k → xs !! j ≠ Some x) →
  py_index xs x = Ok (Z.of_nat k).
Proof.
  induction xs as [|y ys IH]; intros k Hk Hfirst; [done|].
  simpl. destruct k as [|k].
  - simpl in Hk. injection Hk as ->. by rewrite decide_True.
  - rewrite decide_False.
    + rewrite (IH k); [simpl; f_equal; lia|done|].
      intros j Hj. apply (Hfirst (S j)). lia.
    + intros ->. by apply (Hfirst 0); [lia|].
Qed.

Lemma py_index_NoDup `{EqDecision A} (xs : list A) x k :
  NoDup xs → xs !! k = Some x → py_index xs x = Ok (Z.of_nat k).
Proof.
  intros Hnd Hk. apply py_index_first; [done|].
  intros j Hj Hx. pose proof (NoDup_lookup _ _ _ _ Hnd Hx Hk). lia.
Qed.

Lemma py_index_only_raises_ValueError `{EqDecision A} (xs : list A) x :
  (∃ k, py_index xs x = Ok k) ∨ py_index xs x = Raise ValueError.
Proof.
  induction xs as [|y ys IH]; [by right|]. simpl.
  case_decide; [left; by eexists|].
  destruct IH as [[k ->]| ->]; [left; by eexists|by right].
Qed.

Lemma comprehension_returns {A B} (f : A → result B) (g : A → B) xs :
  Forall (λ x, f x = Ok (g x)) xs → comprehension f xs = Ok (g <$> xs).
Proof.
  induction 1 as [|x xs Hx _ IH]; [done|]. simpl. by rewrite Hx, IH.
Qed.

Lemma comprehension_zip {A B} (f : A → result B) xs ys :
  Forall2 (λ x y, f x = Ok y) xs ys → comprehension f xs = Ok ys.
Proof.
  induction 1 as [|x y xs ys Hx _ IH]; [done|]. simpl. by rewrite Hx, IH.
Qed.

Lemma comprehension_raises {A B} (f : A → result B) e xs x :
  (∀ y, (∃ b, f y = Ok b) ∨ f y = Raise e) →
  x ∈ xs → f x = Raise e →
  comprehension f xs = Raise e.
Proof.
  intros Honly Hin Hx. induction xs as [|y ys IH].
  - by apply elem_of_nil in Hin.
  - simpl. destruct (Honly y) as [[b Hb]|He]; [|by rewrite He].
    rewrite Hb. simpl.
    apply elem_of_cons in Hin as [->|Hin]; [congruence|].
    by rewrite IH.
Qed.

Lemma np_index_inside len (k : nat) :
  k < len → np_index len (Z.of_nat k) = Ok k.
Proof.
  intros Hk. unfold np_index. rewrite bool_decide_eq_true_2 by lia.
  by rewrite Nat2Z.id.
Qed.

Lemma np_index_minus_one len :
  0 < len → np_index len (-1) = Ok (len - 1).
Proof.
  intros Hlen. unfold np_index.
  rewrite bool_decide_eq_false_2, bool_decide_eq_true_2 by lia.
  f_equal. lia.
Qed.

Lemma np_index_beyond len (k : Z) :
  (Z.of_nat len ≤ k)%Z → np_index len k = Raise IndexError.
Proof.
  intros Hk. unfold np_index. by rewrite !bool_decide_eq_false_2 by lia.
Qed.

(** The mean of a single value is that value, whatever it is. *)
Lemma mean_of_one x :
  num_div (foldl num_add zero [x]) (int_to_float (Z.of_nat 1)) = x.
Proof.
  change (Z.of_nat 1) with 1%Z. unfold int_to_float. rewrite Z2Qc_inj_1.
  destruct x as [|b|q]; simpl; [done| |].
  - by destruct b.
  - f_equal. rewrite Qcplus_0_l. apply (right_id 1%Qc Qcdiv).
Qed.

Lemma label_indices `{EqDecision A} (labels interest : list A) ps R :
  NoDup labels →
  Forall2 (λ label p, labels !! S p = Some label ∧ p < R) interest ps →
  comprehension (λ label, let! k := py_index labels label in Ok (k - 1)%Z)
    interest
  = Ok (Z.of_nat <$> ps).
Proof.
  intros Hnd Hall. apply comprehension_zip.
  apply Forall2_fmap_r. eapply Forall2_impl; [|exact Hall].
  intros label p [Hp _]. simpl.
  rewrite (py_index_NoDup labels label (S p)) by done. simpl.
  f_equal. lia.
Qed.

Lemma column_indices ps R :
  Forall (λ p, p < R) ps →
  comprehension (np_index R) (Z.of_nat <$> ps) = Ok ps.
Proof.
  intros Hall. apply comprehension_zip. apply Forall2_fmap_l.
  apply Forall_Forall2_diag. eapply Forall_impl; [|exact Hall].
  intros p Hp. by apply np_index_inside.
Qed.

Lemma np_index_only_raises_IndexError len k :
  (∃ c, np_index len k = Ok c) ∨ np_index len k = Raise IndexError.
Proof.
  unfold np_index. repeat case_bool_decide; eauto.
Qed.

(** X1: a label of interest that is not among the parcel labels makes
    [plot_agg_dgfc] raise [ValueError], whatever the other arguments. *)
Theorem plot_agg_dgfc_unknown_label `{EqDecision A} gdfc
    (labels interest : list A) x :
  x ∈ interest → x ∉ labels →
  plot_agg_dgfc gdfc labels interest = Raise ValueError.
Proof.
  intros Hin Hout. unfold plot_agg_dgfc.
  rewrite (comprehension_raises _ ValueError interest x); [done| |done|].
  - intros y. destruct (py_index_only_raises_ValueError labels y)
      as [[k ->]| ->]; [left; by eexists|by right].
  - by rewrite py_index_missing.
Qed.

Lemma plot_agg_dgfc_unknown_label_witness :
  plot_agg_dgfc example_gdfc example_parcel_labels
    [Labels.pcc_1; Labels.unknown]
  = Raise ValueError.
Proof.
  apply (plot_agg_dgfc_unknown_label example_gdfc example_parcel_labels
           [Labels.pcc_1; Labels.unknown] Labels.unknown).
  - apply list_elem_of_In. simpl. tauto.
  - intros Hin. apply list_elem_of_In in Hin. simpl in Hin.
    repeat destruct Hin as [Hin|Hin]; try discriminate Hin. exact Hin.
Defined.

(** X2: with distinct parcel labels, and every label of interest found at
    a position [p + 1] with [p < R], [plot_agg_dgfc] returns, for every
    window, the mean over the labels of interest of entry [p] of the
    window's global vector: the shift by one skips the background label. *)
Theorem plot_agg_dgfc_mean_of_columns `{EqDecision A}
    (gdfc : list (list num)) (labels interest : list A) ps R :
  NoDup labels →
  gdfc ≠ [] →
  Forall (λ row, length row = R) gdfc →
  Forall2 (λ label p, labels !! S p = Some label ∧ p < R) interest ps →
  plot_agg_dgfc gdfc labels interest
  = Ok ((λ row, num_div (foldl num_add zero ((λ p, row !!! p) <$> ps))
                  (int_to_float (Z.of_nat (length interest))))
          <$> gdfc).
Proof.
  intros Hnd Hne Hcols Hall. unfold plot_agg_dgfc.
  rewrite (label_indices labels interest ps R) by done. simpl.
  destruct gdfc as [|row0 rest]; [done|].
  unfold take_columns. inversion Hcols as [|? ? Hrow0 _]; subst.
  assert (length interest = length ps) as Hlen by (by eapply Forall2_length).
  rewrite column_indices.
  - cbv beta iota delta [result_bind]. f_equal. unfold np_mean_axis1.
    rewrite <- list_fmap_compose. apply list_fmap_ext.
    intros i row _. simpl. by rewrite length_fmap, Hlen.
  - apply Forall_lookup. intros i p Hp.
    destruct (Forall2_lookup_r _ _ _ _ _ Hall Hp) as (label & _ & _ & Hlt).
    done.
Qed.

Lemma plot_agg_dgfc_mean_of_columns_witness :
  plot_agg_dgfc example_gdfc example_parcel_labels
    [Labels.pcc_1; Labels.pcc_2]
  = Ok ((λ row, num_div (foldl num_add zero ((λ p, row !!! p) <$> [1; 2]))
                  (int_to_float 2))
          <$> example_gdfc).
Proof.
  apply (plot_agg_dgfc_mean_of_columns example_gdfc example_parcel_labels
           [Labels.pcc_1; Labels.pcc_2] [1; 2] 3).
  - repeat (apply NoDup_cons_2;
            [intros Hin; apply list_elem_of_In in Hin; simpl in Hin;
             repeat destruct Hin as [Hin|Hin]; try discriminate Hin;
             exact Hin|]).
    apply NoDup_nil_2.
  - discriminate.
  - repeat constructor.
  - repeat constructor.
Defined.

(** X3: with distinct parcel labels, selecting the single parcel found at
    position [p + 1] returns entry [p] of every window's global vector
    unchanged, NaN and infinities included. *)
Theorem plot_agg_dgfc_single_parcel `{EqDecision A}
    (gdfc : list (list num)) (labels : list A) label p R :
  NoDup labels →
  gdfc ≠ [] →
  Forall (λ row, length row = R) gdfc →
  labels !! S p = Some label →
  p < R →
  plot_agg_dgfc gdfc labels [label] = Ok ((λ row, row !!! p) <$> gdfc).
Proof.
  intros Hnd Hne Hcols Hp HR. unfold plot_agg_dgfc.
  rewrite (label_indices labels [label] [p] R) by (by repeat constructor).
  cbv beta iota delta [result_bind]. destruct gdfc as [|row0 rest]; [done|].
  unfold take_columns. inversion Hcols as [|? ? Hrow0 _]; subst.
  rewrite column_indices by (by repeat constructor).
  cbv beta iota delta [result_bind]. f_equal. unfold np_mean_axis1.
  rewrite <- list_fmap_compose. apply list_fmap_ext.
  intros i row _. apply mean_of_one.
Qed.

Lemma plot_agg_dgfc_single_parcel_witness :
  plot_agg_dgfc example_gdfc example_parcel_labels [Labels.vis_1]
  = Ok [Fin half; Fin (- half)%Qc].
Proof.
  apply (plot_agg_dgfc_single_parcel example_gdfc example_parcel_labels
           Labels.vis_1 0 3).
  - repeat (apply NoDup_cons_2;
            [intros Hin; apply list_elem_of_In in Hin; simpl in Hin;
             repeat destruct Hin as [Hin|Hin]; try discriminate Hin;
             exact Hin|]).
    apply NoDup_nil_2.
  - discriminate.
  - repeat constructor.
  - reflexivity.
  - lia.
Defined.

(** X4: the first parcel label (the background) is found at position 0,
    the shift turns it into index -1, and numpy reads that as the last
    column: asking for the background returns, without any error, the
    global connectivity of the last parcel. *)
Theorem plot_agg_dgfc_background_is_last_parcel `{EqDecision A}
    (gdfc : list (list num)) (background : A) (others : list A) R :
  gdfc ≠ [] →
  Forall (λ row, length row = R) gdfc →
  0 < R →
  plot_agg_dgfc gdfc (background :: others) [background]
  = Ok ((λ row, row !!! (R - 1)) <$> gdfc).
Proof.
  intros Hne Hcols HR. unfold plot_agg_dgfc. simpl.
  rewrite decide_True by done. simpl.
  destruct gdfc as [|row0 rest]; [done|].
  unfold take_columns. inversion Hcols as [|? ? Hrow0 _]; subst.
  cbn [comprehension]. change (0 - 1)%Z with (-1)%Z.
  rewrite np_index_minus_one by done.
  cbv beta iota delta [result_bind]. f_equal. unfold np_mean_axis1.
  rewrite <- list_fmap_compose. apply list_fmap_ext.
  intros i row _. apply mean_of_one.
Qed.

Lemma plot_agg_dgfc_background_is_last_parcel_witness :
  plot_agg_dgfc example_gdfc example_parcel_labels [Labels.background]
  = Ok [Fin half; Fin half].
Proof.
  apply (plot_agg_dgfc_background_is_last_parcel example_gdfc
           Labels.background [Labels.vis_1; Labels.pcc_1; Labels.pcc_2] 3).
  - discriminate.
  - repeat constructor.
  - lia.
Defined.

(** X5: with distinct parcel labels that are all known, a label of
    interest whose position minus one is not a column of the global
    vectors makes [plot_agg_dgfc] raise [IndexError]. *)
Theorem plot_agg_dgfc_label_beyond_columns `{EqDecision A}
    (gdfc : list (list num)) (labels interest : list A) label p R :
  NoDup labels →
  gdfc ≠ [] →
  Forall (λ row, length row = R) gdfc →
  Forall (λ l, l ∈ labels) interest →
  label ∈ interest →
  labels !! S p = Some label →
  R ≤ p →
  plot_agg_dgfc gdfc labels interest = Raise IndexError.
Proof.
  intros Hnd Hne Hcols Hknown Hin Hp HR. unfold plot_agg_dgfc.
  rewrite (comprehension_returns _
             (λ l, default 0%Z
                     (match py_index labels l with
                      | Ok k => Some (k - 1)%Z
                      | Raise _ => None
                      end))).
  - simpl. destruct gdfc as [|row0 rest]; [done|].
    unfold take_columns. inversion Hcols as [|? ? Hrow0 _]; subst.
    rewrite (comprehension_raises _ IndexError _ (Z.of_nat p)); [done| | |].
    + apply np_index_only_raises_IndexError.
    + apply list_elem_of_fmap. exists label. split; [|done].
      rewrite (py_index_NoDup labels label (S p)) by done. simpl. lia.
    + apply np_index_beyond. lia.
  - eapply Forall_impl; [|exact Hknown].
    intros l Hl. apply list_elem_of_lookup in Hl as [k Hk].
    by rewrite (py_index_NoDup labels l k).
Qed.

Lemma plot_agg_dgfc_label_beyond_columns_witness :
  plot_agg_dgfc [[Fin half; Fin half]; [NaN; Fin half]] example_parcel_labels
    [Labels.vis_1; Labels.pcc_2]
  = Raise IndexError.
Proof.
  apply (plot_agg_dgfc_label_beyond_columns _ example_parcel_labels
           [Labels.vis_1; Labels.pcc_2] Labels.pcc_2 2 2).
  - repeat (apply NoDup_cons_2;
            [intros Hin; apply list_elem_of_In in Hin; simpl in Hin;
             repeat destruct Hin as [Hin|Hin]; try discriminate Hin;
             exact Hin|]).
    apply NoDup_nil_2.
  - discriminate.
  - repeat constructor.
  - repeat constructor; apply list_elem_of_In; simpl; tauto.
  - apply list_elem_of_In. simpl. tauto.
  - reflexivity.
  - lia.
Defined.

(** ** [dynamic_fc]: a single region, the last window, the diagonals *)

Lemma window_loop_broadcast corr (ts : matrix) ws step fms n r c
    (B : nat → matrix) :
  ∀ (windows : list nat) d (stamps : list Qc),
  shape3 d = (n, r, c) →
  Forall (λ i, i < n
               ∧ broadcast_to r c
                   (stationary_fc corr (window_timeseries ts ws step i))
                 = Some (B i)) windows →
  for_state windows
     (λ i '(dfc_matrix, window_timestamps),
        let! dfc_matrix :=
          setitem_broadcast dfc_matrix i
            (stationary_fc corr (window_timeseries ts ws step i)) in
        Ok (dfc_matrix,
            <[i := window_timestamp ws step fms i]> window_timestamps))
     (d, stamps)
  = Ok (mk_ndarray3 (n, r, c)
          (foldl (λ its i, <[i := B i]> its) (items d) windows),
        foldl (λ st i, <[i := window_timestamp ws step fms i]> st)
          stamps windows).
Proof.
  induction windows as [|i windows IH]; intros d stamps Hd Hall.
  - simpl. destruct d as [sh its]. simpl in *. by subst.
  - inversion Hall as [|? ? [Hi Hb] Hall']; subst.
    simpl. unfold setitem_broadcast. rewrite Hd.
    rewrite bool_decide_eq_true_2 by done.
    rewrite Hb. simpl. by rewrite IH.
Qed.

Lemma one_by_one (M : matrix) : has_shape M 1 1 → ∃ x, M = [[x]].
Proof.
  intros [Hr Hc]. destruct M as [|row [|row' M]]; simpl in Hr; try lia.
  inversion Hc as [|? ? Hrow _]; subst.
  destruct row as [|x [|y row]]; simpl in Hrow; try lia. by exists x.
Qed.

Lemma stationary_fc_single_region corr (w : matrix) r :
  measure_shape corr → 1 ≤ r → has_shape w r 1 →
  stationary_fc corr w = [[zero]].
Proof.
  intros Hm Hr Hw. unfold stationary_fc.
  destruct (one_by_one (corr w)) as [x ->]; [by apply (Hm w r 1)|done].
Qed.

Lemma stationary_fc_zero_diagonal corr (w : matrix) c :
  has_shape (corr w) c c → zero_diagonal (stationary_fc corr w).
Proof.
  intros Hshape i Hi. unfold stationary_fc in *.
  rewrite fill_diagonal_entry, decide_True by done.
  pose proof (fill_diagonal_shape _ zero _ _ Hshape) as [Hlen _].
  rewrite Hlen in Hi.
  by destruct (entry_is_Some _ c c i i Hshape Hi Hi) as [x ->].
Qed.

(** X6: a series with a single region does not fail: the [1 × 1] matrix of
    every window is broadcast over the [100 × 100] slot of the stack, so
    the computation returns [n_windows] matrices that are zero
    everywhere. *)
Theorem dynamic_fc_single_region_broadcasts corr (ts : matrix) ws step fms :
  measure_shape corr →
  Forall (λ row, length row = 1) ts →
  (0 < ws ≤ Z.of_nat (length ts))%Z →
  (0 < step)%Z →
  dynamic_fc corr ts ws step fms
  = Ok (mk_ndarray3
          (Z.to_nat ((Z.of_nat (length ts) - ws) / step + 1), 100, 100)
          (replicate (Z.to_nat ((Z.of_nat (length ts) - ws) / step + 1))
             (replicate 100 (replicate 100 zero))),
        window_timestamp ws step fms
          <$> seq 0 (Z.to_nat ((Z.of_nat (length ts) - ws) / step + 1))).
Proof.
  intros Hm Hcols Hws Hstep.
  rewrite dynamic_fc_unfold. unfold py_floordiv.
  rewrite bool_decide_eq_false_2 by lia. simpl.
  set (n := ((Z.of_nat (length ts) - ws) / step + 1)%Z).
  assert (0 ≤ (Z.of_nat (length ts) - ws) / step)%Z
    by (apply Z.div_pos; lia).
  unfold np_zeros3, np_zeros1.
  rewrite !bool_decide_eq_false_2 by lia. simpl. unfold py_range.
  rewrite (window_loop_broadcast corr ts ws step fms (Z.to_nat n) 100 100
             (λ _, replicate 100 (replicate 100 zero))).
  - simpl. f_equal. f_equal.
    + f_equal.
      rewrite <- (length_replicate (Z.to_nat n)
                    (replicate 100 (replicate 100 zero))) at 2.
      rewrite foldl_insert_seq_full. rewrite length_replicate.
      rewrite (const_fmap _ (seq 0 (Z.to_nat n))
                 (replicate 100 (replicate 100 zero))) by done.
      by rewrite length_seq.
    + rewrite <- (length_replicate (Z.to_nat n) 0%Qc) at 2.
      rewrite foldl_insert_seq_full. by rewrite length_replicate.
  - done.
  - apply Forall_forall. intros i Hi. apply in_seq in Hi.
    split; [lia|].
    assert (Z.of_nat i * step + ws ≤ Z.of_nat (length ts))%Z as Hfit.
    { apply full_windows_count; [done|]. fold n. lia. }
    rewrite (stationary_fc_single_region corr _ (Z.to_nat ws));
      [done|done|lia|].
    apply window_timeseries_shape; [lia|lia|done|done].
Qed.

Lemma dynamic_fc_single_region_broadcasts_witness :
  dynamic_fc identity_measure (ramp 10 1) 5 5 (Qc_of_Z 900)
  = Ok (mk_ndarray3 (2, 100, 100)
          (replicate 2 (replicate 100 (replicate 100 zero))),
        window_timestamp 5 5 (Qc_of_Z 900) <$> seq 0 2).
Proof.
  apply (dynamic_fc_single_region_broadcasts identity_measure (ramp 10 1)
           5 5 (Qc_of_Z 900)).
  - exact identity_measure_shape.
  - apply ramp_columns.
  - rewrite ramp_rows. lia.
  - lia.
Defined.

(** X7: for valid parameters the last window ends
    [(T - window_size) mod step_size] samples before the end of the series,
    fewer than [step_size]: these trailing samples enter no window. *)
Theorem last_window_position (ts : matrix) ws step :
  (0 < ws ≤ Z.of_nat (length ts))%Z →
  (0 < step)%Z →
  window_timeseries ts ws step
    (Z.to_nat ((Z.of_nat (length ts) - ws) / step))
  = take (Z.to_nat ws)
      (drop (Z.to_nat (Z.of_nat (length ts) - ws
                       - (Z.of_nat (length ts) - ws) `mod` step)) ts)
  ∧ (0 ≤ (Z.of_nat (length ts) - ws) `mod` step < step)%Z
  ∧ ∀ i : nat,
      (Z.of_nat i < (Z.of_nat (length ts) - ws) / step + 1)%Z →
      (Z.of_nat i * step + ws
       ≤ Z.of_nat (length ts) - (Z.of_nat (length ts) - ws) `mod` step)%Z.
Proof.
  intros Hws Hstep.
  set (a := (Z.of_nat (length ts) - ws)%Z).
  assert (0 ≤ a / step)%Z by (apply Z.div_pos; lia).
  pose proof (Z.mod_pos_bound a step Hstep) as Hmod.
  pose proof (Z.div_mod a step ltac:(lia)) as Hdm.
  split; [|split; [done|]].
  - rewrite window_timeseries_inside; [|lia|done|].
    + rewrite Z2Nat.id by done. do 3 f_equal. lia.
    + rewrite Z2Nat.id by done. nia.
  - intros i Hi. nia.
Qed.

Lemma last_window_position_witness :
  window_timeseries (ramp 11 3) 4 3 2 = take 4 (drop 6 (ramp 11 3))
  ∧ (0 ≤ 1 < 3)%Z.
Proof.
  assert (0 < 4 ≤ Z.of_nat (length (ramp 11 3)))%Z as Hws
    by (rewrite ramp_rows; lia).
  destruct (last_window_position (ramp 11 3) 4 3 Hws ltac:(lia))
    as (Hlast & Hmod & _).
  rewrite ramp_rows in Hlast, Hmod.
  split; [exact Hlast | exact Hmod].
Defined.

(** X9: with 100 regions and valid parameters, every matrix of the
    returned stack is [100 × 100] and has a diagonal that is exactly 0. *)
Theorem stack_matrices_have_zero_diagonal corr (ts : matrix) ws step fms :
  measure_shape corr →
  Forall (λ row, length row = 100) ts →
  (0 < ws ≤ Z.of_nat (length ts))%Z →
  (0 < step)%Z →
  ∃ d stamps,
    dynamic_fc corr ts ws step fms = Ok (d, stamps)
    ∧ length (items d) = length stamps
    ∧ ∀ w (W : matrix),
        items d !! w = Some W → has_shape W 100 100 ∧ zero_diagonal W.
Proof.
  intros Hm Hcols Hws Hstep. rewrite dynamic_fc_returns by done.
  eexists _, _. split; [done|]. simpl.
  split; [by rewrite !length_fmap|].
  intros w W HW. rewrite list_lookup_fmap in HW.
  destruct (seq _ _ !! w) as [i|] eqn:Hi; [|done].
  simpl in HW. injection HW as <-.
  apply lookup_seq in Hi as [-> Hlt]. simpl.
  assert (Z.of_nat w * step + ws ≤ Z.of_nat (length ts))%Z as Hfit.
  { apply full_windows_count; [done|]. lia. }
  assert (has_shape (window_timeseries ts ws step w) (Z.to_nat ws) 100)
    as Hw by (apply window_timeseries_shape; [lia|lia|done|done]).
  split.
  - apply (stationary_fc_shape corr _ (Z.to_nat ws) 100); [done|lia|done].
  - apply (stationary_fc_zero_diagonal corr _ 100).
    apply (Hm _ (Z.to_nat ws) 100); [lia|done].
Qed.

Lemma stack_matrices_have_zero_diagonal_witness :
  ∃ d stamps,
    dynamic_fc identity_measure (ramp 10 100) 5 5 (Qc_of_Z 900)
    = Ok (d, stamps)
    ∧ length (items d) = length stamps
    ∧ ∀ w (W : matrix),
        items d !! w = Some W → has_shape W 100 100 ∧ zero_diagonal W.
Proof.
  apply (stack_matrices_have_zero_diagonal identity_measure (ramp 10 100)
           5 5 (Qc_of_Z 900)).
  - exact identity_measure_shape.
  - apply ramp_columns.
  - rewrite ramp_rows. lia.
  - lia.
Defined.

(** X10: when the step is at most the window, consecutive windows overlap:
    window [i] without its first [step_size] samples is window [i + 1]
    without its last [step_size] samples. *)
Theorem consecutive_windows_overlap (ts : matrix) ws step (i : nat) :
  (0 < step ≤ ws)%Z →
  (Z.of_nat (S i) * step + ws ≤ Z.of_nat (length ts))%Z →
  drop (Z.to_nat step) (window_timeseries ts ws step i)
  = take (Z.to_nat (ws - step)) (window_timeseries ts ws step (S i)).
Proof.
  intros Hstep Hfit.
  rewrite !window_timeseries_inside by lia.
  apply list_eq. intros k. rewrite lookup_drop.
  destruct (decide (k < Z.to_nat (ws - step))) as [Hk|Hk].
  - rewrite !lookup_take_lt by lia. rewrite !lookup_drop. f_equal. lia.
  - rewrite (lookup_take_ge _ (Z.to_nat (ws - step))) by lia.
    apply lookup_take_ge. lia.
Qed.

Lemma consecutive_windows_overlap_witness :
  drop 2 (window_timeseries (ramp 10 3) 5 2 1)
  = take 3 (window_timeseries (ramp 10 3) 5 2 2).
Proof.
  apply (consecutive_windows_overlap (ramp 10 3) 5 2 1).
  - lia.
  - rewrite ramp_rows. lia.
Defined.

(** ** [dynamic_gfc]: columns, a single region, the range of the means *)

Lemma Qc_this_plus (x y : Qc) : (this (x + y)%Qc == this x + this y)%Q.
Proof. unfold Qcplus. simpl. apply Qred_correct. Qed.

Lemma Qc_this_opp (x : Qc) : (this (- x)%Qc == - this x)%Q.
Proof. unfold Qcopp. simpl. apply Qred_correct. Qed.

Lemma Qc_this_minus (x y : Qc) : (this (x - y)%Qc == this x - this y)%Q.
Proof. unfold Qcminus. rewrite Qc_this_plus, Qc_this_opp. reflexivity. Qed.

(** Linear goals over [Qc] are sent to [Q], where [lra] decides them. *)
Ltac qc_linear :=
  unfold Qcle, Qclt in *;
  repeat (rewrite ?Qc_this_plus, ?Qc_this_minus, ?Qc_this_opp in * );
  change (this 1%Qc) with 1%Q in *;
  change (this 0%Qc) with 0%Q in *;
  lra.

(** A sum of [k] numbers between -1 and 1 moves the start by at most [k]. *)
Lemma sum_in_range (xs : list num) : ∀ a : Qc,
  Forall in_unit_range xs →
  ∃ s, foldl num_add (Fin a) xs = Fin s
       ∧ (a - Qc_of_Z (Z.of_nat (length xs)) ≤ s)%Qc
       ∧ (s ≤ a + Qc_of_Z (Z.of_nat (length xs)))%Qc.
Proof.
  induction xs as [|x xs IH]; intros a Hall.
  - exists a. split; [done|]. cbn [length]. change (Z.of_nat 0) with 0%Z.
    rewrite Z2Qc_inj_0. split; qc_linear.
  - inversion Hall as [|? ? Hx Hxs]; subst.
    destruct (in_unit_range_finite x Hx) as (q & -> & Hq1 & Hq2).
    destruct (IH (a + q)%Qc Hxs) as (s & Hs & Hlo & Hhi).
    exists s. split; [done|].
    simpl length. rewrite Nat2Z.inj_succ, <- Z.add_1_r, Z2Qc_inj_add.
    rewrite Z2Qc_inj_1. split; qc_linear.
Qed.

Lemma sum_in_range_with_zero (xs : list num) j :
  xs !! j = Some zero →
  (∀ i x, i ≠ j → xs !! i = Some x → in_unit_range x) →
  ∃ s, foldl num_add zero xs = Fin s
       ∧ (- Qc_of_Z (Z.of_nat (length xs) - 1) ≤ s)%Qc
       ∧ (s ≤ Qc_of_Z (Z.of_nat (length xs) - 1))%Qc.
Proof.
  intros Hj Hrest.
  pose proof (lookup_lt_Some _ _ _ Hj) as Hlt.
  rewrite <- (take_drop_middle xs j zero Hj).
  rewrite foldl_app. unfold zero at 1.
  destruct (sum_in_range (take j xs) 0%Qc) as (s1 & Hs1 & Hlo1 & Hhi1).
  { apply Forall_lookup. intros i x Hx.
    apply lookup_take_Some in Hx as [Hx Hi]. apply (Hrest i); [lia|done]. }
  rewrite Hs1. simpl foldl.
  destruct (sum_in_range (drop (S j) xs) (s1 + 0)%Qc)
    as (s & Hs & Hlo & Hhi).
  { apply Forall_lookup. intros i x Hx. rewrite lookup_drop in Hx.
    apply (Hrest (S j + i)); [lia|done]. }
  exists s. split; [done|].
  rewrite length_app. simpl length.
  rewrite length_take_le, length_drop in * by lia.
  replace (Z.of_nat (j + S (length xs - S j)) - 1)%Z
    with (Z.of_nat j + Z.of_nat (length xs - S j))%Z by lia.
  rewrite Z2Qc_inj_add. split; qc_linear.
Qed.

Lemma quotient_in_unit_range (s k : Qc) :
  (0 < k)%Qc → (- k ≤ s)%Qc → (s ≤ k)%Qc → (-1 ≤ s / k ≤ 1)%Qc.
Proof.
  intros Hk Hlo Hhi.
  assert (k ≠ 0%Qc) as Hne by (intros ->; by apply (Qclt_not_eq 0 0)).
  pose proof (Qclt_le_weak _ _ (Qcinv_pos k Hk)) as Hinv.
  pose proof (Qcmult_le_compat_r _ _ _ Hlo Hinv) as Hlo'.
  pose proof (Qcmult_le_compat_r _ _ _ Hhi Hinv) as Hhi'.
  rewrite Qcmult_inv_r in Hhi' by done.
  assert (- k * / k = -1)%Qc as E by (by field).
  rewrite E in Hlo'. by unfold Qcdiv.
Qed.

Lemma parcels_minus_one_positive R : 2 ≤ R → (0 < Qc_of_Z (Z.of_nat R - 1))%Qc.
Proof.
  intros HR. rewrite <- Z2Qc_inj_0. apply (proj1 (Z2Qc_inj_lt _ _)). lia.
Qed.

(** X11: whatever the matrix of a window, symmetric or not, element [j] of
    its aggregate is the sum of column [j] (the entries [W[i][j]] over all
    rows [i]) divided by [R - 1]; there is one aggregate per window. *)
Theorem dynamic_gfc_is_column_mean (d : ndarray3) n r R w (W : matrix) j :
  shape3 d = (n, r, R) →
  items d !! w = Some W →
  has_shape W r R →
  j < R →
  length (dynamic_gfc d) = length (items d)
  ∧ ∃ g, dynamic_gfc d !! w = Some g
         ∧ length g = R
         ∧ g !! j = Some (num_div (foldl num_add zero (column W j))
                            (int_to_float (Z.of_nat R - 1))).
Proof.
  intros Hd HW Hshape Hj. split.
  - unfold dynamic_gfc. by rewrite length_fmap.
  - by eapply dynamic_gfc_entry.
Qed.

Lemma dynamic_gfc_is_column_mean_witness :
  row_sum [[zero; Fin half]; [Fin (- half)%Qc; zero]] 0 = Fin (0 + 0 + half)%Qc
  ∧ ∃ g, dynamic_gfc (mk_ndarray3 (1, 2, 2)
                        [[[zero; Fin half]; [Fin (- half)%Qc; zero]]]) !! 0
         = Some g
         ∧ length g = 2
         ∧ g !! 0 = Some (num_div (foldl num_add zero [zero; Fin (- half)%Qc])
                            (int_to_float 1)).
Proof.
  split; [reflexivity|].
  destruct (dynamic_gfc_is_column_mean
              (mk_ndarray3 (1, 2, 2)
                 [[[zero; Fin half]; [Fin (- half)%Qc; zero]]])
              1 2 2 0 [[zero; Fin half]; [Fin (- half)%Qc; zero]] 0
              eq_refl eq_refl)
    as [_ Hg].
  - split; [reflexivity|]. repeat constructor.
  - lia.
  - exact Hg.
Defined.

(** X12: with a single region nothing is raised: the division by
    [R - 1 = 0] turns the aggregate of a [1 × 1] matrix with zero diagonal
    into NaN. *)
Theorem dynamic_gfc_single_region_is_nan (d : ndarray3) n w (W : matrix) :
  shape3 d = (n, 1, 1) →
  items d !! w = Some W →
  has_shape W 1 1 →
  zero_diagonal W →
  dynamic_gfc d !! w = Some [NaN].
Proof.
  intros Hd HW Hshape Hdiag.
  destruct (one_by_one W Hshape) as [x ->].
  specialize (Hdiag 0 ltac:(simpl; lia)). injection Hdiag as ->.
  rewrite (dynamic_gfc_lookup d n 1 1 w [[zero]]) by done.
  done.
Qed.

Lemma dynamic_gfc_single_region_is_nan_witness :
  dynamic_gfc (mk_ndarray3 (2, 1, 1) [[[zero]]; [[zero]]]) !! 1 = Some [NaN].
Proof.
  apply (dynamic_gfc_single_region_is_nan
           (mk_ndarray3 (2, 1, 1) [[[zero]]; [[zero]]]) 2 1 [[zero]]
           eq_refl eq_refl).
  - split; [reflexivity|]. repeat constructor.
  - intros i Hi. simpl in Hi. by replace i with 0 by lia.
Defined.

Lemma aggregate_in_unit_range (W : matrix) R :
  2 ≤ R →
  has_shape W R R →
  zero_diagonal W →
  (∀ i j x, i ≠ j → entry W i j = Some x → in_unit_range x) →
  Forall in_unit_range
    ((λ s, num_div s (int_to_float (Z.of_nat R - 1))) <$> np_sum_axis0 R W).
Proof.
  intros HR Hshape Hdiag Hrange. apply Forall_lookup. intros j x Hx.
  assert (j < R) as Hj.
  { apply lookup_lt_Some in Hx.
    rewrite length_fmap, (np_sum_axis0_length W R R) in Hx; done. }
  rewrite list_lookup_fmap, (np_sum_axis0_lookup W R R j) in Hx by done.
  simpl in Hx. injection Hx as <-.
  destruct Hshape as [Hlen Hcols].
  destruct (sum_in_range_with_zero (column W j) j) as (s & Hs & Hlo & Hhi).
  - rewrite (column_lookup W R R) by done. apply Hdiag. lia.
  - intros i y Hij Hy. rewrite (column_lookup W R R) in Hy by done.
    by apply (Hrange i j).
  - rewrite Hs. unfold column in Hlo, Hhi.
    rewrite length_fmap, Hlen in Hlo, Hhi.
    unfold int_to_float.
    rewrite num_div_finite by (by apply parcels_minus_one_nonzero).
    simpl. apply quotient_in_unit_range;
      [by apply parcels_minus_one_positive|done|done].
Qed.

(** X13: for a window whose matrix has a zero diagonal and, off the
    diagonal, entries between -1 and 1 ([R ≥ 2]), every element of the
    aggregate lies between -1 and 1. *)
Theorem dynamic_gfc_in_unit_range (d : ndarray3) n R w (W : matrix) :
  shape3 d = (n, R, R) →
  2 ≤ R →
  items d !! w = Some W →
  has_shape W R R →
  zero_diagonal W →
  (∀ i j x, i ≠ j → entry W i j = Some x → in_unit_range x) →
  ∃ g, dynamic_gfc d !! w = Some g
       ∧ length g = R
       ∧ Forall in_unit_range g.
Proof.
  intros Hd HR HW Hshape Hdiag Hrange.
  eexists. split; [by eapply dynamic_gfc_lookup|]. split.
  - rewrite length_fmap. by eapply np_sum_axis0_length.
  - by apply aggregate_in_unit_range.
Qed.

Lemma dynamic_gfc_in_unit_range_witness :
  ∃ g, dynamic_gfc example_stack !! 1 = Some g
       ∧ length g = 3
       ∧ Forall in_unit_range g.
Proof.
  apply (dynamic_gfc_in_unit_range example_stack 2 3 1 uniform_window
           eq_refl ltac:(lia) eq_refl uniform_window_shape
           uniform_window_diagonal).
  intros i j x Hij Hx.
  destruct i as [|[|[|i]]]; destruct j as [|[|[|j]]];
    try discriminate Hx; try (exfalso; apply Hij; reflexivity);
    injection Hx as <-; split; by vm_compute.
Defined.

(** ** [create_dgfc_volumes]: layout, values that are no parcel number,
       chains, repeated calls *)

Lemma paint_row_lengths i frame rows n :
  Forall (λ row : list num, length row = n) rows →
  Forall (λ row : list num, length row = n) (paint i frame rows).
Proof.
  intros Hrows. unfold paint. apply Forall_lookup. intros v row Hrow.
  rewrite lookup_zip_with in Hrow.
  destruct (rows !! v) as [row0|] eqn:Hv; [|done]. simpl in Hrow.
  destruct (frame !! v) as [x|]; [|done]. simpl in Hrow.
  injection Hrow as <-. rewrite length_insert.
  rewrite Forall_lookup in Hrows. by apply (Hrows v).
Qed.

Lemma paint_loop_shape (F : nat → list num) n : ∀ (frames : list nat) rows k,
  (∀ i, length (F i) = k) →
  length rows = k →
  Forall (λ row : list num, length row = n) rows →
  length (foldl (λ rows i, paint i (F i) rows) rows frames) = k
  ∧ Forall (λ row : list num, length row = n)
      (foldl (λ rows i, paint i (F i) rows) rows frames).
Proof.
  induction frames as [|i frames IH]; intros rows k HF Hlen Hrows; [done|].
  simpl. apply IH; [done| |by apply paint_row_lengths].
  rewrite paint_length; [done|]. by rewrite HF.
Qed.

Lemma frame_loop_allocations tmpl vol gdfc vox n : ∀ (frames : list nat)
    (h h' : heap) rows,
  h !! tmpl = Some (Grid3 vox) →
  h !! vol = Some (Grid4 n rows) →
  length rows = length vox →
  Forall (λ i, i < length gdfc) frames →
  for_each frames (frame_body tmpl vol gdfc) h = Ok (tt, h') →
  length h' = length h + length frames.
Proof.
  induction frames as [|i frames IH]; intros h h' rows Ht Hv Hlen Hin Hrun.
  - simpl in Hrun. injection Hrun as <-. simpl. lia.
  - inversion Hin as [|? ? Hi Hin']; subst.
    destruct (lookup_lt_is_Some_2 gdfc i Hi) as [g Hg].
    pose proof (lookup_lt_Some _ _ _ Hv) as Hvlt.
    pose proof (lookup_lt_Some _ _ _ Ht) as Htlt.
    assert (tmpl ≠ vol) as Hne by (intros ->; congruence).
    simpl in Hrun. unfold mbind at 1 in Hrun.
    rewrite (frame_body_spec tmpl vol gdfc i g vox n rows h) in Hrun by done.
    apply IH with (rows := paint i (relabel g <$> vox) rows) in Hrun.
    + rewrite Hrun, length_insert, length_app. simpl. lia.
    + rewrite list_lookup_insert_ne by done.
      by rewrite lookup_app_l by lia.
    + apply list_lookup_insert_eq. rewrite length_app. lia.
    + rewrite paint_length; by rewrite ?length_fmap.
    + done.
Qed.

(** Where the output lies and what shape it has. *)
Lemma create_dgfc_volumes_layout self (h : heap) vox :
  h !! parcel_img self = Some (Grid3 vox) →
  ∃ (h' : heap) rows,
    create_dgfc_volumes self h
    = Ok (mk_I2Run (parcel_img self) (gdfc_matrix self) (Some (length h)), h')
    ∧ h' !! length h = Some (Grid4 (length (gdfc_matrix self)) rows)
    ∧ length rows = length vox
    ∧ Forall (λ row, length row = length (gdfc_matrix self)) rows
    ∧ length h' = length h + 1 + length (gdfc_matrix self).
Proof.
  intros Ht.
  pose proof (lookup_lt_Some _ _ _ Ht) as Htlt.
  set (n := length (gdfc_matrix self)).
  set (rows0 := replicate (length vox) (replicate n zero)).
  assert ((h ++ [Grid4 n rows0]) !! parcel_img self = Some (Grid3 vox))
    as Ht1 by (by rewrite lookup_app_l by lia).
  assert ((h ++ [Grid4 n rows0]) !! length h = Some (Grid4 n rows0))
    as Hv1 by (by rewrite lookup_app_r, Nat.sub_diag by lia).
  assert (length rows0 = length vox) as Hlen0
    by (subst rows0; by rewrite length_replicate).
  assert (Forall (λ i, i < length (gdfc_matrix self)) (seq 0 n)) as Hin.
  { apply Forall_forall. intros i Hi. apply in_seq in Hi. lia. }
  destruct (frame_loop_spec (parcel_img self) (length h) (gdfc_matrix self)
              vox n (seq 0 n) (h ++ [Grid4 n rows0]) rows0 Ht1 Hv1 Hlen0 Hin)
    as (h' & Hrun & _ & _ & Hvol).
  pose proof (frame_loop_allocations _ _ _ _ _ _ _ _ _ Ht1 Hv1 Hlen0 Hin Hrun)
    as Halloc.
  eexists h', _. rewrite create_dgfc_volumes_unfold.
  unfold mbind at 1. unfold load3. rewrite Ht.
  unfold mbind at 1. unfold np_zeros4, alloc.
  unfold mbind at 1. fold n. fold rows0. rewrite Hrun.
  split; [done|]. split; [exact Hvol|].
  destruct (paint_loop_shape
              (λ i, relabel (default [] (gdfc_matrix self !! i)) <$> vox)
              n (seq 0 n) rows0 (length vox)) as [Hl Hr].
  - intros i. by rewrite length_fmap.
  - done.
  - subst rows0. apply Forall_replicate. by rewrite length_replicate.
  - split; [exact Hl|]. split; [exact Hr|].
    rewrite Halloc, length_app, length_seq. simpl. lia.
Qed.

(** X14: the reconstruction returns an array of one row per voxel of the
    label volume and [n_frames] values per row, stored in an object of its
    own, distinct from every array that existed before the call. *)
Theorem reconstruction_output_shape self (h : heap) vox :
  h !! parcel_img self = Some (Grid3 vox) →
  ∃ self' (h' : heap) rows,
    create_dgfc_volumes self h = Ok (self', h')
    ∧ gdfc_img self' = Some (length h)
    ∧ h' !! length h = Some (Grid4 (length (gdfc_matrix self)) rows)
    ∧ length rows = length vox
    ∧ Forall (λ row, length row = length (gdfc_matrix self)) rows.
Proof.
  intros Ht.
  destruct (create_dgfc_volumes_layout self h vox Ht)
    as (h' & rows & Hrun & Hvol & Hlen & Hrows & _).
  by eexists _, h', rows.
Qed.

Lemma reconstruction_output_shape_witness :
  ∃ self' (h' : heap) rows,
    create_dgfc_volumes example_run example_heap = Ok (self', h')
    ∧ gdfc_img self' = Some 1
    ∧ h' !! 1 = Some (Grid4 2 rows)
    ∧ length rows = 5
    ∧ Forall (λ row, length row = 2) rows.
Proof.
  exact (reconstruction_output_shape example_run example_heap
           example_labels eq_refl).
Defined.

(** X15: when every value of every global vector is NaN or lies between
    -1 and 1, as means of correlations do, the reconstruction is exact:
    at every frame a voxel of label [l], [1 ≤ l ≤ R], holds
    [GlobalVector[f][l-1]], and a background voxel holds 0. *)
Theorem reconstruction_of_correlation_values self (h : heap) vox :
  h !! parcel_img self = Some (Grid3 vox) →
  Forall (Forall (λ x, x = NaN ∨ in_unit_range x)) (gdfc_matrix self) →
  ∃ self' (h' : heap) out,
    create_dgfc_volumes self h = Ok (self', h')
    ∧ gdfc_img self' = Some out
    ∧ ∀ v f g,
        gdfc_matrix self !! f = Some g →
        (vox !! v = Some (label 0) → voxel_at h' out v f = Some zero)
        ∧ (∀ l : nat,
             1 ≤ l ≤ length g →
             vox !! v = Some (label (Z.of_nat l)) →
             voxel_at h' out v f = g !! (l - 1)).
Proof.
  intros Ht Hvalues.
  destruct (create_dgfc_volumes_spec self h vox Ht) as (h' & Hrun & _ & Hvox).
  eexists _, h', (length h). split; [exact Hrun|]. split; [done|].
  intros v f g Hg. split.
  - intros Hv. rewrite (Hvox v f _ g Hv Hg).
    rewrite relabel_outside by lia. by rewrite label_0.
  - intros l Hl Hv.
    destruct (lookup_lt_is_Some_2 g (l - 1)) as [w Hw]; [lia|].
    rewrite (Hvox v f _ g Hv Hg), Hw. f_equal.
    apply relabel_inside; [lia|done|].
    intros p Hlp. apply (correlation_value_is_no_later_label w l p); [|lia|lia].
    rewrite Forall_lookup in Hvalues. specialize (Hvalues f g Hg).
    rewrite Forall_lookup in Hvalues. by apply (Hvalues (l - 1)).
Qed.

Lemma reconstruction_of_correlation_values_witness :
  ∃ self' (h' : heap) out,
    create_dgfc_volumes example_run example_heap = Ok (self', h')
    ∧ gdfc_img self' = Some out
    ∧ voxel_at h' out 0 0 = Some (Fin half)
    ∧ voxel_at h' out 2 0 = Some (Fin (- half)%Qc)
    ∧ voxel_at h' out 0 1 = Some NaN
    ∧ voxel_at h' out 1 1 = Some zero.
Proof.
  assert (Forall (Forall (λ x, x = NaN ∨ in_unit_range x))
            (gdfc_matrix example_run)) as Hvalues.
  { repeat (first [apply List.Forall_nil | apply List.Forall_cons]);
      first [by left | right; split; by vm_compute]. }
  destruct (reconstruction_of_correlation_values example_run example_heap
              example_labels eq_refl Hvalues)
    as (self' & h' & out & Hrun & Hout & Hvox).
  exists self', h', out. split; [exact Hrun|]. split; [exact Hout|].
  split; [|split; [|split]].
  - apply (proj2 (Hvox 0 0 _ eq_refl) 1); [simpl; lia|reflexivity].
  - apply (proj2 (Hvox 2 0 _ eq_refl) 2); [simpl; lia|reflexivity].
  - apply (proj2 (Hvox 0 1 _ eq_refl) 1); [simpl; lia|reflexivity].
  - apply (proj1 (Hvox 1 1 _ eq_refl)). reflexivity.
Defined.

(** X16: a voxel whose value is the number of no parcel (NaN, a fraction,
    a label outside [1..R]) holds that value unchanged in every frame. *)
Theorem reconstruction_passes_other_values self (h : heap) vox :
  h !! parcel_img self = Some (Grid3 vox) →
  ∃ self' (h' : heap) out,
    create_dgfc_volumes self h = Ok (self', h')
    ∧ gdfc_img self' = Some out
    ∧ ∀ v f g x,
        gdfc_matrix self !! f = Some g →
        vox !! v = Some x →
        (∀ p, 1 ≤ p ≤ length g → x ≠ label (Z.of_nat p)) →
        voxel_at h' out v f = Some x.
Proof.
  intros Ht.
  destruct (create_dgfc_volumes_spec self h vox Ht) as (h' & Hrun & _ & Hvox).
  eexists _, h', (length h). split; [exact Hrun|]. split; [done|].
  intros v f g x Hg Hv Hx.
  rewrite (Hvox v f x g Hv Hg). f_equal.
  rewrite relabel_eq. apply relabel_from_miss.
  intros p Hp. apply Hx. lia.
Qed.

Lemma reconstruction_passes_other_values_witness :
  ∃ self' (h' : heap) out,
    create_dgfc_volumes colliding_run [Grid3 [NaN; Fin half; label 2]]
    = Ok (self', h')
    ∧ gdfc_img self' = Some out
    ∧ voxel_at h' out 0 0 = Some NaN
    ∧ voxel_at h' out 1 0 = Some (Fin half).
Proof.
  destruct (reconstruction_passes_other_values colliding_run
              [Grid3 [NaN; Fin half; label 2]] [NaN; Fin half; label 2]
              eq_refl)
    as (self' & h' & out & Hrun & Hout & Hvox).
  exists self', h', out. split; [exact Hrun|]. split; [exact Hout|]. split.
  - apply (Hvox 0 0 _ NaN eq_refl eq_refl). intros p Hp. discriminate.
  - apply (Hvox 1 0 _ (Fin half) eq_refl eq_refl). intros p Hp E.
    simpl in Hp. assert (p = 1 ∨ p = 2) as [-> | ->] by lia;
      vm_compute in E; discriminate E.
Defined.

Lemma relabel_from_skip g v : ∀ s l,
  s ≤ l →
  g !! (l - s) = Some v →
  relabel_from s g (label (Z.of_nat l))
  = relabel_from (S l) (drop (S (l - s)) g) v.
Proof.
  induction g as [|w g IH]; intros s l Hs Hg; [done|].
  unfold relabel_from at 1. simpl.
  destruct (decide (l = s)) as [->|Hne].
  - rewrite Nat.sub_diag in *. simpl in Hg. injection Hg as ->.
    rewrite substitute_hit. by rewrite drop_0.
  - rewrite substitute_miss.
    + replace (l - s) with (S (l - S s)) in * by lia. simpl in Hg.
      by apply IH; [lia|].
    + intros E. apply int_to_float_inj in E. lia.
Qed.

(** X17: what happens when a written value is the number of a later
    parcel.  If [GlobalVector[f][l-1]] is the number [p] of a later parcel
    and [GlobalVector[f][p-1]] is the number of no parcel after [p], a
    voxel of label [l] ends with [GlobalVector[f][p-1]], the value meant
    for parcel [p]. *)
Theorem reconstruction_follows_chain self (h : heap) vox :
  h !! parcel_img self = Some (Grid3 vox) →
  ∃ self' (h' : heap) out,
    create_dgfc_volumes self h = Ok (self', h')
    ∧ gdfc_img self' = Some out
    ∧ ∀ v f g (l p : nat) w,
        gdfc_matrix self !! f = Some g →
        1 ≤ l → l < p ≤ length g →
        vox !! v = Some (label (Z.of_nat l)) →
        g !! (l - 1) = Some (label (Z.of_nat p)) →
        g !! (p - 1) = Some w →
        (∀ q, p < q ≤ length g → w ≠ label (Z.of_nat q)) →
        voxel_at h' out v f = Some w.
Proof.
  intros Ht.
  destruct (create_dgfc_volumes_spec self h vox Ht) as (h' & Hrun & _ & Hvox).
  eexists _, h', (length h). split; [exact Hrun|]. split; [done|].
  intros v f g l p w Hg Hl Hp Hv Hlp Hw Hlater.
  rewrite (Hvox v f _ g Hv Hg). f_equal.
  rewrite relabel_eq.
  rewrite (relabel_from_skip g (label (Z.of_nat p)) 1 l) by done.
  replace (S (l - 1)) with l by lia.
  apply relabel_from_hit; [lia| |].
  - rewrite lookup_drop. by replace (l + (p - S l)) with (p - 1) by lia.
  - intros q Hq. apply Hlater. rewrite length_drop in Hq. lia.
Qed.

Lemma reconstruction_follows_chain_witness :
  ∃ self' (h' : heap) out,
    create_dgfc_volumes colliding_run example_heap = Ok (self', h')
    ∧ gdfc_img self' = Some out
    ∧ voxel_at h' out 0 0 = Some (int_to_float 5).
Proof.
  destruct (reconstruction_follows_chain colliding_run example_heap
              example_labels eq_refl)
    as (self' & h' & out & Hrun & Hout & Hvox).
  exists self', h', out. split; [exact Hrun|]. split; [exact Hout|].
  apply (Hvox 0 0 _ 1 2 _ eq_refl); [lia|simpl; lia|reflexivity|
                                       reflexivity|reflexivity|].
  intros q Hq. simpl in Hq. lia.
Defined.

(** X18: a second call leaves the output of the first call as it was, puts
    its own output into another object, and fills it with the same
    values. *)
Theorem reconstruction_twice self (h : heap) vox :
  h !! parcel_img self = Some (Grid3 vox) →
  ∃ self1 (h1 : heap) self2 (h2 : heap) out1 out2,
    create_dgfc_volumes self h = Ok (self1, h1)
    ∧ create_dgfc_volumes self1 h1 = Ok (self2, h2)
    ∧ gdfc_img self1 = Some out1
    ∧ gdfc_img self2 = Some out2
    ∧ out1 ≠ out2
    ∧ h2 !! out1 = h1 !! out1
    ∧ ∀ v f,
        v < length vox → f < length (gdfc_matrix self) →
        is_Some (voxel_at h1 out1 v f)
        ∧ voxel_at h2 out2 v f = voxel_at h1 out1 v f.
Proof.
  intros Ht.
  destruct (create_dgfc_volumes_spec self h vox Ht)
    as (h1 & Hrun1 & Hold1 & Hvox1).
  destruct (create_dgfc_volumes_layout self h vox Ht)
    as (h1' & rows & Hrun1' & _ & _ & _ & Halloc).
  assert (h1' = h1) as -> by congruence.
  pose proof (lookup_lt_Some _ _ _ Ht) as Htlt.
  set (self1 := mk_I2Run (parcel_img self) (gdfc_matrix self)
                  (Some (length h))).
  assert (h1 !! parcel_img self1 = Some (Grid3 vox)) as Ht1
    by (simpl; by rewrite Hold1).
  destruct (create_dgfc_volumes_spec self1 h1 vox Ht1)
    as (h2 & Hrun2 & Hold2 & Hvox2).
  eexists self1, h1, _, h2, (length h), (length h1).
  split; [exact Hrun1|]. split; [exact Hrun2|].
  split; [done|]. split; [done|]. split; [lia|].
  split; [apply Hold2; lia|].
  intros v f Hv Hf.
  destruct (lookup_lt_is_Some_2 vox v Hv) as [x Hx].
  destruct (lookup_lt_is_Some_2 (gdfc_matrix self) f Hf) as [g Hg].
  rewrite (Hvox1 v f x g Hx Hg).
  split; [by eexists|]. by apply Hvox2.
Qed.

Lemma reconstruction_twice_witness :
  ∃ self1 (h1 : heap) self2 (h2 : heap) out1 out2,
    create_dgfc_volumes example_run example_heap = Ok (self1, h1)
    ∧ create_dgfc_volumes self1 h1 = Ok (self2, h2)
    ∧ gdfc_img self1 = Some out1
    ∧ gdfc_img self2 = Some out2
    ∧ out1 ≠ out2
    ∧ h2 !! out1 = h1 !! out1
    ∧ ∀ v f,
        v < 5 → f < 2 →
        is_Some (voxel_at h1 out1 v f)
        ∧ voxel_at h2 out2 v f = voxel_at h1 out1 v f.
Proof.
  exact (reconstruction_twice example_run example_heap example_labels
           eq_refl).
Defined.

(** ** From the series to the volume *)

Lemma stationary_fc_of_valid_segment corr (w : matrix) r c :
  correlation_contract corr →
  valid_segment w r c →
  has_shape (stationary_fc corr w) c c
  ∧ zero_diagonal (stationary_fc corr w)
  ∧ ∀ i j x, i ≠ j → entry (stationary_fc corr w) i j = Some x →
             in_unit_range x.
Proof.
  intros Hcontract Hvalid.
  destruct (Hcontract w r c Hvalid) as (Hshape & _ & Hrange).
  split; [by apply fill_diagonal_shape|].
  split; [by apply (stationary_fc_zero_diagonal corr w c)|].
  intros i j x Hij Hx. unfold stationary_fc in Hx.
  rewrite fill_diagonal_entry, decide_False in Hx by done.
  by eapply Hrange.
Qed.

Lemma returned_stack_vector corr (ts : matrix) ws step n f :
  f < n →
  dynamic_gfc
    (mk_ndarray3 (n, 100, 100)
       ((λ i, stationary_fc corr (window_timeseries ts ws step i))
          <$> seq 0 n)) !! f
  = Some (window_vector corr ts ws step f).
Proof.
  intros Hf. unfold dynamic_gfc. cbn [shape3 items snd].
  rewrite !list_lookup_fmap, lookup_seq_lt by done. done.
Qed.

Lemma window_vector_in_range corr (ts : matrix) ws step f :
  correlation_contract corr →
  valid_segment (window_timeseries ts ws step f) (Z.to_nat ws) 100 →
  length (window_vector corr ts ws step f) = 100
  ∧ Forall in_unit_range (window_vector corr ts ws step f).
Proof.
  intros Hcontract Hvalid.
  destruct (stationary_fc_of_valid_segment corr
              (window_timeseries ts ws step f) (Z.to_nat ws) 100 Hcontract
              Hvalid)
    as (Hshape & Hdiag & Hrange).
  unfold window_vector. split.
  - rewrite length_fmap. by apply (np_sum_axis0_length _ 100 100).
  - by apply (aggregate_in_unit_range _ 100); [lia|..].
Qed.

(** X19: for a series over 100 regions with valid parameters, and windows
    that are valid segments for an estimator that keeps its contract,
    [dynamic_fc] followed by [dynamic_gfc] yields one global vector per
    timestamp, each of length 100, with every value between -1 and 1. *)
Theorem global_vectors_from_series corr (ts : matrix) ws step fms :
  measure_shape corr →
  correlation_contract corr →
  Forall (λ row, length row = 100) ts →
  (0 < ws ≤ Z.of_nat (length ts))%Z →
  (0 < step)%Z →
  (∀ i : nat,
     (Z.of_nat i < (Z.of_nat (length ts) - ws) / step + 1)%Z →
     valid_segment (window_timeseries ts ws step i) (Z.to_nat ws) 100) →
  ∃ d stamps,
    dynamic_fc corr ts ws step fms = Ok (d, stamps)
    ∧ length (dynamic_gfc d) = length stamps
    ∧ length stamps = Z.to_nat ((Z.of_nat (length ts) - ws) / step + 1)
    ∧ Forall (λ g, length g = 100 ∧ Forall in_unit_range g) (dynamic_gfc d).
Proof.
  intros Hm Hcontract Hcols Hws Hstep Hvalid.
  rewrite dynamic_fc_returns by done. eexists _, _. split; [done|].
  split; [unfold dynamic_gfc; simpl; by rewrite !length_fmap|].
  split; [by rewrite length_fmap, length_seq|].
  apply Forall_lookup. intros f g Hg.
  assert (f < Z.to_nat ((Z.of_nat (length ts) - ws) / step + 1)) as Hf.
  { apply lookup_lt_Some in Hg. unfold dynamic_gfc in Hg. simpl in Hg.
    by rewrite !length_fmap, length_seq in Hg. }
  rewrite returned_stack_vector in Hg by done. injection Hg as <-.
  apply window_vector_in_range; [done|]. apply Hvalid. lia.
Qed.

(** X20: under the same conditions, reconstructing a volume from the
    global vectors of the series is exact: the output has one frame per
    window, and at frame [f] a voxel of label [l], [1 ≤ l ≤ 100], holds
    element [l - 1] of the global vector of window [f], a value between -1
    and 1. *)
Theorem reconstruction_from_series corr (ts : matrix) ws step fms
    (template : loc) (h : heap) vox :
  measure_shape corr →
  correlation_contract corr →
  Forall (λ row, length row = 100) ts →
  (0 < ws ≤ Z.of_nat (length ts))%Z →
  (0 < step)%Z →
  (∀ i : nat,
     (Z.of_nat i < (Z.of_nat (length ts) - ws) / step + 1)%Z →
     valid_segment (window_timeseries ts ws step i) (Z.to_nat ws) 100) →
  h !! template = Some (Grid3 vox) →
  ∃ d stamps self' (h' : heap) out,
    dynamic_fc corr ts ws step fms = Ok (d, stamps)
    ∧ create_dgfc_volumes (mk_I2Run template (dynamic_gfc d) None) h
      = Ok (self', h')
    ∧ gdfc_img self' = Some out
    ∧ ∀ v f (l : nat),
        f < length stamps →
        1 ≤ l ≤ 100 →
        vox !! v = Some (label (Z.of_nat l)) →
        ∃ x, voxel_at h' out v f = Some x
             ∧ (dynamic_gfc d !! f ≫= λ g, g !! (l - 1)) = Some x
             ∧ in_unit_range x.
Proof.
  intros Hm Hcontract Hcols Hws Hstep Hvalid Ht.
  rewrite dynamic_fc_returns by done.
  set (n := Z.to_nat ((Z.of_nat (length ts) - ws) / step + 1)).
  set (d := mk_ndarray3 (n, 100, 100) _).
  destruct (create_dgfc_volumes_spec
              (mk_I2Run template (dynamic_gfc d) None) h vox Ht)
    as (h' & Hrec & _ & Hvox).
  eexists d, _, _, h', (length h).
  split; [done|]. split; [exact Hrec|]. split; [done|].
  intros v f l Hf Hl Hv. rewrite length_fmap, length_seq in Hf.
  assert (dynamic_gfc d !! f = Some (window_vector corr ts ws step f)) as Hg
    by (by apply returned_stack_vector).
  destruct (window_vector_in_range corr ts ws step f Hcontract)
    as [Hglen Hgrange]; [apply Hvalid; lia|].
  destruct (lookup_lt_is_Some_2 (window_vector corr ts ws step f) (l - 1))
    as [x Hx]; [lia|].
  rewrite Forall_lookup in Hgrange. pose proof (Hgrange (l - 1) x Hx) as Hxr.
  exists x. split; [|split; [|done]].
  - rewrite (Hvox v f _ _ Hv Hg). f_equal.
    apply relabel_inside; [lia|done|].
    intros p Hp. apply (correlation_value_is_no_later_label x l p);
      [by right|lia|lia].
  - by rewrite Hg.
Qed.

Lemma ramp_entry T R t j :
  t < T → j < R →
  entry (ramp T R) t j = Some (int_to_float (Z.of_nat (t * S j))).
Proof.
  intros Ht Hj. unfold entry, ramp.
  rewrite list_lookup_fmap, lookup_seq_lt by done. simpl.
  by rewrite list_lookup_fmap, lookup_seq_lt by done.
Qed.

Lemma ramp_window_valid T R ws step (i : nat) :
  (2 ≤ ws)%Z → (0 < step)%Z →
  (Z.of_nat i * step + ws ≤ Z.of_nat T)%Z →
  2 ≤ R →
  valid_segment (window_timeseries (ramp T R) ws step i) (Z.to_nat ws) R.
Proof.
  intros Hws Hstep Hfit HR.
  assert (has_shape (window_timeseries (ramp T R) ws step i) (Z.to_nat ws) R)
    as Hshape.
  { apply window_timeseries_shape; [lia|done| |apply ramp_columns].
    by rewrite ramp_rows. }
  split; [done|]. split; [lia|]. split; [done|].
  intros j Hj Hconst.
  set (a := Z.to_nat (Z.of_nat i * step)).
  assert (∀ k, k < 2 →
            column (window_timeseries (ramp T R) ws step i) j !! k
            = Some (int_to_float (Z.of_nat ((a + k) * S j)))) as Hcol.
  { intros k Hk. rewrite (column_lookup _ (Z.to_nat ws) R) by done.
    rewrite window_timeseries_inside by (rewrite ?ramp_rows; lia).
    unfold entry. rewrite lookup_take_lt by lia. rewrite lookup_drop.
    fold a. apply ramp_entry; [|done]. subst a. nia. }
  assert (int_to_float (Z.of_nat ((a + 0) * S j))
          = int_to_float (Z.of_nat ((a + 1) * S j))) as E.
  { apply Hconst; apply list_elem_of_lookup; eexists; apply Hcol; lia. }
  apply int_to_float_inj in E. nia.
Qed.

Lemma global_vectors_from_series_witness :
  ∃ d stamps,
    dynamic_fc identity_measure (ramp 10 100) 5 5 (Qc_of_Z 900)
    = Ok (d, stamps)
    ∧ length (dynamic_gfc d) = length stamps
    ∧ length stamps = 2
    ∧ Forall (λ g, length g = 100 ∧ Forall in_unit_range g) (dynamic_gfc d).
Proof.
  apply (global_vectors_from_series identity_measure (ramp 10 100) 5 5
           (Qc_of_Z 900)).
  - exact identity_measure_shape.
  - exact identity_measure_contract.
  - apply ramp_columns.
  - rewrite ramp_rows. lia.
  - lia.
  - intros i Hi. rewrite ramp_rows in Hi.
    apply ramp_window_valid; [lia|lia| |lia].
    assert ((Z.of_nat 10 - 5) / 5 + 1 = 2)%Z as E by reflexivity.
    rewrite E in Hi. lia.
Defined.

Lemma reconstruction_from_series_witness :
  ∃ d stamps self' (h' : heap) out,
    dynamic_fc identity_measure (ramp 10 100) 5 5 (Qc_of_Z 900)
    = Ok (d, stamps)
    ∧ create_dgfc_volumes (mk_I2Run 0 (dynamic_gfc d) None) example_heap
      = Ok (self', h')
    ∧ gdfc_img self' = Some out
    ∧ ∀ v f (l : nat),
        f < length stamps →
        1 ≤ l ≤ 100 →
        example_labels !! v = Some (label (Z.of_nat l)) →
        ∃ x, voxel_at h' out v f = Some x
             ∧ (dynamic_gfc d !! f ≫= λ g, g !! (l - 1)) = Some x
             ∧ in_unit_range x.
Proof.
  apply (reconstruction_from_series identity_measure (ramp 10 100) 5 5
           (Qc_of_Z 900) 0 example_heap example_labels).
  - exact identity_measure_shape.
  - exact identity_measure_contract.
  - apply ramp_columns.
  - rewrite ramp_rows. lia.
  - lia.
  - intros i Hi. rewrite ramp_rows in Hi.
    apply ramp_window_valid; [lia|lia| |lia].
    assert ((Z.of_nat 10 - 5) / 5 + 1 = 2)%Z as E by reflexivity.
    rewrite E in Hi. lia.
  - reflexivity.
Defined.

(** ** [stationary_fc]: what the diagonal fill keeps *)


